(** * NAA_CAE: token acquisition with claims-challenge retry

    A shallow embedding of [src/auth/claimsManager.ts],
    [src/auth/authConfig.ts], [src/auth/authService.ts] and
    [src/composables/useAuth.ts], and the properties of the
    claims-challenge protocol proved over it.

    JavaScript strings are modelled as [string] (code units 0..255, which
    is what an HTTP header value holds), optional object fields and
    [T | undefined] / [T | null] values as [option], [sessionStorage] as a
    finite map from keys to values (the storage quota is not modelled),
    thrown values as [JsError], and the identity-provider client, [fetch]
    and the JSON parser as the methods of a class [Host]: the code treats
    them as opaque collaborators, and every property is proved for every
    host.  Async functions are run to completion, except
    [getMsalInstance], whose suspension point is modelled so that calls
    can interleave. *)

From Stdlib Require Import NArith Lia Ascii String.
From stdpp Require Import base option list strings gmap pretty.

Local Open Scope string_scope.
Local Open Scope list_scope.

(* ================================================================== *)
(** ** JavaScript values shared by the three modules                   *)
(* ================================================================== *)

(** Thrown values.  [InteractionRequiredAuthError] is the MSAL class the
    code tests with [instanceof]; its [claims] property is a string that
    is empty when the identity provider attached no claims.  Every other
    thrown value is an [Error] with its class name and message
    ([new Error(m)] has the name [Error]). *)
Inductive JsError : Type :=
| InteractionRequiredAuthError (errorCode : string) (claims : string)
| Error (name : string) (message : string).

Definition instanceof_InteractionRequiredAuthError (e : JsError) : bool :=
  match e with
  | InteractionRequiredAuthError _ _ => true
  | Error _ _ => false
  end.

(** How a JavaScript call completes: normally with a value, or abruptly
    with a thrown value. *)
Inductive Completion (A : Type) : Type :=
| Normal (a : A)
| Throw (e : JsError).
Arguments Normal {A} a.
Arguments Throw {A} e.

Definition is_Normal {A} (c : Completion A) : bool :=
  match c with Normal _ => true | Throw _ => false end.

(** [try { body } catch { handler }] for code without state. *)
Definition try_catch_pure {A} (body : Completion A)
    (handler : JsError -> Completion A) : Completion A :=
  match body with
  | Normal a => Normal a
  | Throw e => handler e
  end.

(** Truthiness of a string: only the empty string is falsy. *)
Definition truthy (s : string) : bool :=
  match s with
  | EmptyString => false
  | String _ _ => true
  end.

(** Truthiness of a [string | undefined] (or [string | null]). *)
Definition truthy_opt (o : option string) : bool :=
  match o with
  | Some s => truthy s
  | None => false
  end.

(* ================================================================== *)
(** ** Platform functions used by claimsManager.ts                     *)
(* ================================================================== *)

Module Platform.

(** The double-quote code unit (U+0022). *)
Definition dquote : ascii := ascii_of_N 34.

(** *** [atob]: the forgiving-base64 decoder of the HTML standard *)

Definition is_ascii_whitespace (c : ascii) : bool :=
  let n := N_of_ascii c in
  ((n =? 9) || (n =? 10) || (n =? 12) || (n =? 13) || (n =? 32))%N.

(** Position of a code unit in the base64 alphabet [A-Za-z0-9+/]. *)
Definition sextet_of_char (c : ascii) : option N :=
  let n := N_of_ascii c in
  if ((65 <=? n) && (n <=? 90))%N then Some (n - 65)%N
  else if ((97 <=? n) && (n <=? 122))%N then Some (n - 71)%N
  else if ((48 <=? n) && (n <=? 57))%N then Some (n + 4)%N
  else if (n =? 43)%N then Some 62%N
  else if (n =? 47)%N then Some 63%N
  else None.

Definition equals_sign : ascii := ascii_of_N 61.

(** When the length is a multiple of four, one or two trailing [=] are
    removed. *)
Definition strip_padding (d : list ascii) : list ascii :=
  if (length d mod 4 =? 0)%nat then
    match rev d with
    | p1 :: p2 :: r =>
        if Ascii.eqb p1 equals_sign then
          if Ascii.eqb p2 equals_sign then rev r else rev (p2 :: r)
        else d
    | [p1] => if Ascii.eqb p1 equals_sign then [] else d
    | [] => d
    end
  else d.

Definition byte_of_bits (n : N) : ascii := ascii_of_N (N.land n 255).

(** Sextets are accumulated in a 24-bit buffer that is flushed as three
    bytes; a final buffer of 12 bits gives one byte (the last four bits
    are dropped) and one of 18 bits gives two bytes (the last two bits
    are dropped). *)
Fixpoint decode_sextets (l : list N) : list ascii :=
  match l with
  | a :: b :: c :: d :: rest =>
      let n := N.lor (N.lor (N.lor (N.shiftl a 18) (N.shiftl b 12))
                            (N.shiftl c 6)) d in
      byte_of_bits (N.shiftr n 16) :: byte_of_bits (N.shiftr n 8)
        :: byte_of_bits n :: decode_sextets rest
  | [a; b; c] =>
      let n := N.shiftr (N.lor (N.lor (N.shiftl a 12) (N.shiftl b 6)) c) 2 in
      [byte_of_bits (N.shiftr n 8); byte_of_bits n]
  | [a; b] =>
      let n := N.shiftr (N.lor (N.shiftl a 6) b) 4 in
      [byte_of_bits n]
  | _ => []
  end.

Definition InvalidCharacterError : JsError :=
  Error "InvalidCharacterError" "The string to be decoded is not correctly encoded.".

Definition atob (data : string) : Completion string :=
  let d := strip_padding
             (filter (fun c => negb (is_ascii_whitespace c))
                     (list_ascii_of_string data)) in
  if (length d mod 4 =? 1)%nat then Throw InvalidCharacterError
  else
    match mapM sextet_of_char d with
    | None => Throw InvalidCharacterError
    | Some sextets => Normal (string_of_list_ascii (decode_sextets sextets))
    end.

(** *** The regular expression of [claimsRegex]

    Written with Q for the double-quote code unit, the pattern is
    [/claims=Q([^Q]+)Q/i]: the literal [claims=Q] matched ignoring case,
    a group of one or more code units other than Q, and a closing Q. *)

(** Case folding of the [i] flag.  Only ASCII letters fold onto ASCII
    letters; a code unit of 128 or more never folds to an ASCII one, so
    for this all-ASCII pattern it is enough to leave those unchanged. *)
Definition canonicalize (c : ascii) : ascii :=
  let n := N_of_ascii c in
  if ((97 <=? n) && (n <=? 122))%N then ascii_of_N (n - 32) else c.

(** Match the literal [pat] at the head of [s], ignoring case; the rest
    of [s] is returned. *)
Fixpoint match_literal_i (pat s : string) : option string :=
  match pat with
  | EmptyString => Some s
  | String p pat' =>
      match s with
      | EmptyString => None
      | String c s' =>
          if Ascii.eqb (canonicalize p) (canonicalize c)
          then match_literal_i pat' s'
          else None
      end
  end.

(** The group and the closing quote at the head of [s]: the group is
    greedy, and gives back code units one at a time when the closing
    quote does not follow. *)
Fixpoint match_group_then_quote (s : string) : option string :=
  match s with
  | EmptyString => None
  | String c s' =>
      if Ascii.eqb c dquote then None
      else
        match match_group_then_quote s' with
        | Some v => Some (String c v)
        | None =>
            match s' with
            | String q _ =>
                if Ascii.eqb q dquote then Some (String c EmptyString) else None
            | EmptyString => None
            end
        end
  end.

(** The literal part of the pattern: [claims=] and a double quote. *)
Definition claims_literal : string := "claims=" +:+ String dquote EmptyString.

(** The whole pattern tried at the head of [s]; the result is group 1. *)
Definition claimsRegex_at (s : string) : option string :=
  match match_literal_i claims_literal s with
  | Some rest => match_group_then_quote rest
  | None => None
  end.

(** [claimsRegex.exec(s)]: the pattern is tried at index 0, 1, ... and
    the first index that matches wins.  [None] is the [null] result,
    [Some v] a match whose group 1 is [v]. *)
Fixpoint claimsRegex_exec (s : string) : option string :=
  match claimsRegex_at s with
  | Some v => Some v
  | None =>
      match s with
      | EmptyString => None
      | String _ s' => claimsRegex_exec s'
      end
  end.

End Platform.

(* ================================================================== *)
(** ** claimsManager.ts: parsing                                       *)
(* ================================================================== *)

Definition parseClaimsChallengeFromHeader (wwwAuthenticateHeader : string)
  : Completion (option string) :=
  match Platform.claimsRegex_exec wwwAuthenticateHeader with
  | None => Normal None
  | Some group1 =>
      if negb (truthy group1) then Normal None
      else
        try_catch_pure
          (match Platform.atob group1 with
           | Normal decoded => Normal (Some decoded)
           | Throw e => Throw e
           end)
          (fun _ => Normal (Some group1))
  end.

(** A one-character string holding the double quote, for writing header
    values. *)
Definition QUOTE : string := String Platform.dquote EmptyString.

(* ================================================================== *)
(** ** Data of the identity-provider client and of fetch               *)
(* ================================================================== *)

Record AccountInfo : Type := {
  homeAccountId : string;
  username : string;
}.

(** The request object handed to the provider client.  A field that the
    code never assigned is [None]. *)
Record PopupRequest : Type := {
  scopes : list string;
  claims : option string;
  account : option AccountInfo;
  forceRefresh : option bool;
}.

Definition set_claims (c : string) (r : PopupRequest) : PopupRequest :=
  {| scopes := scopes r; claims := Some c; account := account r;
     forceRefresh := forceRefresh r |}.

Definition set_account (a : AccountInfo) (r : PopupRequest) : PopupRequest :=
  {| scopes := scopes r; claims := claims r; account := Some a;
     forceRefresh := forceRefresh r |}.

Definition set_forceRefresh (b : bool) (r : PopupRequest) : PopupRequest :=
  {| scopes := scopes r; claims := claims r; account := account r;
     forceRefresh := Some b |}.

Record AuthenticationResult : Type := {
  accessToken : string;
  result_account : option AccountInfo;
}.

(** A fetch [Response]: [headers_get] is [response.headers.get],
    [response_text] what [response.text()] settles to. *)
Record Response : Type := {
  status : N;
  statusText : string;
  headers_get : string -> option string;
  response_text : Completion string;
}.

Definition response_ok (r : Response) : bool :=
  ((200 <=? status r) && (status r <=? 299))%N.

Record Configuration : Type := {
  clientId : string;
  authority : string;
  supportsNestedAppAuth : bool;
  clientCapabilities : list string;
  cacheLocation : string;
}.

(** The collaborators the code calls but does not define: the provider
    client factory and its methods, [fetch], and the JSON parser behind
    [response.json()].  [W] is the state of the outside world they act
    on, [Pca] the type of client objects, [J] the type of parsed JSON. *)
Class Host (W Pca J : Type) : Type := {
  createNestablePublicClientApplication :
    Configuration -> W -> W * Completion Pca;
  pca_getActiveAccount : Pca -> W -> option AccountInfo;
  pca_getAllAccounts : Pca -> W -> list AccountInfo;
  pca_setActiveAccount : Pca -> AccountInfo -> W -> W;
  pca_acquireTokenSilent :
    Pca -> PopupRequest -> W -> W * Completion AuthenticationResult;
  pca_acquireTokenPopup :
    Pca -> PopupRequest -> W -> W * Completion AuthenticationResult;
  fetch : string -> string -> W -> W * Completion Response;
  JSON_parse : string -> Completion J;
}.

(* ================================================================== *)
(** ** authConfig.ts                                                   *)
(* ================================================================== *)

Definition CLIENT_ID : string := "CLIENT ID".
Definition AUTHORITY : string := "https://login.microsoftonline.com/common".

Definition msalConfig : Configuration := {|
  clientId := CLIENT_ID;
  authority := AUTHORITY;
  supportsNestedAppAuth := true;
  clientCapabilities := ["CP1"];
  cacheLocation := "localStorage";
|}.

Definition buildGraphRequest (scopes : list string)
    (claimsChallenge : option string) : PopupRequest :=
  let request :=
    {| scopes := scopes; claims := None; account := None;
       forceRefresh := None |} in
  match claimsChallenge with
  | Some c => if truthy c then set_claims c request else request
  | None => request
  end.

(* ================================================================== *)
(** ** The state the modules share, and the monad of their code        *)
(* ================================================================== *)

Section Service.

Context {W Pca J : Type} `{!Host W Pca J}.

(** Module-level and browser state: the [msalInstance] variable of
    authService.ts, the session storage, and the outside world. *)
Record State : Type := {
  msalInstance : option Pca;
  sessionStorage : gmap string string;
  world : W;
}.

(** Calls that leave the code, in the order they are issued, each with
    what it settled to.  The acquisition events also record the session
    storage at the moment of the call. *)
Inductive Event : Type :=
| CreateClient (config : Configuration) (result : Completion Pca)
| AcquireTokenSilent (request : PopupRequest)
    (storage : gmap string string) (result : Completion AuthenticationResult)
| AcquireTokenPopup (request : PopupRequest)
    (storage : gmap string string) (result : Completion AuthenticationResult)
| Fetch (url : string) (authorization : string) (result : Completion Response).

(** The result of running a piece of code from a state. *)
Record Run (A : Type) : Type := {
  final : State;
  events : list Event;
  outcome : Completion A;
}.
Arguments final {A} _.
Arguments events {A} _.
Arguments outcome {A} _.

Definition M (A : Type) : Type := State -> Run A.

Definition ret {A} (a : A) : M A :=
  fun s => {| final := s; events := []; outcome := Normal a |}.

Definition throw {A} (e : JsError) : M A :=
  fun s => {| final := s; events := []; outcome := Throw e |}.

(** A run with earlier calls put in front of its record. *)
Definition prefixed {A} (earlier : list Event) (r : Run A) : Run A :=
  match r with
  | {| final := s; events := evs; outcome := c |} =>
      {| final := s; events := earlier ++ evs; outcome := c |}
  end.

Definition bind {A B} (m : M A) (k : A -> M B) : M B :=
  fun s =>
    match m s with
    | {| final := s1; events := evs1; outcome := Normal a |} =>
        prefixed evs1 (k a s1)
    | {| final := s1; events := evs1; outcome := Throw e |} =>
        {| final := s1; events := evs1; outcome := Throw e |}
    end.

(** [try { body } catch (error) { handler error }]. *)
Definition try_catch {A} (body : M A) (handler : JsError -> M A) : M A :=
  fun s =>
    match body s with
    | {| final := s1; events := evs1; outcome := Normal a |} =>
        {| final := s1; events := evs1; outcome := Normal a |}
    | {| final := s1; events := evs1; outcome := Throw e |} =>
        prefixed evs1 (handler e s1)
    end.

(** A computation without state, such as the header parser. *)
Definition lift {A} (c : Completion A) : M A :=
  fun s => {| final := s; events := []; outcome := c |}.

Notation "'let*' x := m 'in' k" := (bind m (fun x => k))
  (at level 10, x name, m at level 100, k at level 200).
Notation "m ;;; k" := (bind m (fun _ => k))
  (at level 100, k at level 200, right associativity).

(** *** Primitive steps *)

Definition read_msalInstance : M (option Pca) :=
  fun s => {| final := s; events := []; outcome := Normal (msalInstance s) |}.

Definition write_msalInstance (p : Pca) : M unit :=
  fun s =>
    {| final := {| msalInstance := Some p;
                   sessionStorage := sessionStorage s; world := world s |};
       events := []; outcome := Normal tt |}.

Definition sessionStorage_setItem (key value : string) : M unit :=
  fun s =>
    {| final := {| msalInstance := msalInstance s;
                   sessionStorage := <[key := value]> (sessionStorage s);
                   world := world s |};
       events := []; outcome := Normal tt |}.

Definition sessionStorage_getItem (key : string) : M (option string) :=
  fun s =>
    {| final := s; events := []; outcome := Normal (sessionStorage s !! key) |}.

Definition sessionStorage_removeItem (key : string) : M unit :=
  fun s =>
    {| final := {| msalInstance := msalInstance s;
                   sessionStorage := delete key (sessionStorage s);
                   world := world s |};
       events := []; outcome := Normal tt |}.

Definition with_world (s : State) (w : W) : State :=
  {| msalInstance := msalInstance s; sessionStorage := sessionStorage s;
     world := w |}.

(** A call to a collaborator that settles: the world advances, the call
    is recorded, and the settlement is the outcome. *)
Definition host_call {A} (call : W -> W * Completion A)
    (record : State -> Completion A -> Event) : M A :=
  fun s =>
    let '(w, c) := call (world s) in
    {| final := with_world s w; events := [record s c]; outcome := c |}.

Definition acquireTokenSilent (pca : Pca) (request : PopupRequest)
  : M AuthenticationResult :=
  host_call (pca_acquireTokenSilent pca request)
    (fun s c => AcquireTokenSilent request (sessionStorage s) c).

Definition acquireTokenPopup (pca : Pca) (request : PopupRequest)
  : M AuthenticationResult :=
  host_call (pca_acquireTokenPopup pca request)
    (fun s c => AcquireTokenPopup request (sessionStorage s) c).

Definition do_fetch (url authorization : string) : M Response :=
  host_call (fetch url authorization) (fun _ c => Fetch url authorization c).

Definition setActiveAccount (pca : Pca) (a : AccountInfo) : M unit :=
  fun s =>
    {| final := with_world s (pca_setActiveAccount pca a (world s));
       events := []; outcome := Normal tt |}.

Definition read_world {A} (f : W -> A) : M A :=
  fun s => {| final := s; events := []; outcome := Normal (f (world s)) |}.

(* ================================================================== *)
(** ** claimsManager.ts: the session-scoped store                      *)
(* ================================================================== *)

Definition STORAGE_KEY_PREFIX : string := "naa_cae_claims_".

Definition storeClaimsChallenge (resource claims : string) : M unit :=
  sessionStorage_setItem (STORAGE_KEY_PREFIX +:+ resource) claims.

Definition getStoredClaimsChallenge (resource : string) : M (option string) :=
  sessionStorage_getItem (STORAGE_KEY_PREFIX +:+ resource).

Definition clearClaimsChallenge (resource : string) : M unit :=
  sessionStorage_removeItem (STORAGE_KEY_PREFIX +:+ resource).

Definition handleClaimsChallengeFromResponse (response : Response)
    (resource : string) : M (option string) :=
  if negb (status response =? 401)%N then ret None
  else
    match headers_get response "WWW-Authenticate" with
    | None => ret None
    | Some wwwAuth =>
        if negb (truthy wwwAuth) then ret None
        else
          let* claims := lift (parseClaimsChallengeFromHeader wwwAuth) in
          (if truthy_opt claims
           then storeClaimsChallenge resource (default EmptyString claims)
           else ret tt) ;;;
          ret claims
    end.

(* ================================================================== *)
(** ** authService.ts                                                  *)
(* ================================================================== *)

(** [getMsalInstance] is an async function with one suspension point,
    the [await] of the client factory.  [getMsalInstance_enter] is the
    code run when the function is called, up to that [await]: it either
    returns the cached instance ([inl]) or has called the factory and is
    waiting for what the factory settles to ([inr]).
    [getMsalInstance_resume] is the code run when the awaited promise has
    settled. *)
Definition getMsalInstance_enter : M (Pca + Completion Pca) :=
  let* cached := read_msalInstance in
  match cached with
  | Some pca => ret (inl pca)
  | None =>
      fun s =>
        let '(w, c) := createNestablePublicClientApplication msalConfig (world s) in
        {| final := with_world s w; events := [CreateClient msalConfig c];
           outcome := Normal (inr c) |}
  end.

Definition getMsalInstance_resume (settled : Completion Pca) : M Pca :=
  let* created := lift settled in
  write_msalInstance created ;;;
  ret created.

(** A call that nothing else interleaves with. *)
Definition getMsalInstance : M Pca :=
  let* entered := getMsalInstance_enter in
  match entered with
  | inl pca => ret pca
  | inr settled => getMsalInstance_resume settled
  end.

Definition getActiveAccount : M (option AccountInfo) :=
  let* instance := read_msalInstance in
  match instance with
  | None => ret None
  | Some pca =>
      let* active := read_world (pca_getActiveAccount pca) in
      match active with
      | Some a => ret (Some a)
      | None =>
          let* accounts := read_world (pca_getAllAccounts pca) in
          match accounts with
          | first :: _ => setActiveAccount pca first ;;; ret (Some first)
          | [] => ret None
          end
      end
  end.

Definition error_claims (e : JsError) : string :=
  match e with
  | InteractionRequiredAuthError _ c => c
  | Error _ _ => EmptyString
  end.

Definition acquireToken (scopes : list string) (resource : string)
  : M AuthenticationResult :=
  let* pca := getMsalInstance in
  let* account := getActiveAccount in
  let* storedClaims := getStoredClaimsChallenge resource in
  let request := buildGraphRequest scopes storedClaims in
  let request :=
    match account with
    | Some a => set_account a request
    | None => request
    end in
  let request :=
    if truthy_opt storedClaims then set_forceRefresh true request
    else request in
  try_catch
    (let* result := acquireTokenSilent pca request in
     (match result_account result with
      | Some a => setActiveAccount pca a
      | None => ret tt
      end) ;;;
     (if truthy_opt storedClaims then clearClaimsChallenge resource
      else ret tt) ;;;
     ret result)
    (fun error =>
       if instanceof_InteractionRequiredAuthError error then
         let* request :=
           (if truthy (error_claims error) then
              let request := set_claims (error_claims error) request in
              storeClaimsChallenge resource (error_claims error) ;;;
              ret request
            else ret request) in
         let* result := acquireTokenPopup pca request in
         (match result_account result with
          | Some a => setActiveAccount pca a
          | None => ret tt
          end) ;;;
         clearClaimsChallenge resource ;;;
         ret result
       else throw error).

(** The default value of the [resource] parameter. *)
Definition acquireToken_default (scopes : list string)
  : M AuthenticationResult :=
  acquireToken scopes "graph".

Definition NEWLINE : string := String (ascii_of_N 10) EmptyString.

Definition graph_error_message (response : Response) (errorBody : string)
  : string :=
  "Graph API error " +:+ pretty (status response) +:+ ": "
    +:+ statusText response +:+ NEWLINE +:+ errorBody.

Definition RESOURCE : string := "graph".
Definition GRAPH_BASE : string := "https://graph.microsoft.com/v1.0".

Definition callGraphWithClaimsRetry (endpoint : string)
    (scopes : list string) : M J :=
  let* tokenResult := acquireToken scopes RESOURCE in
  let* response := do_fetch (GRAPH_BASE +:+ endpoint)
                       ("Bearer " +:+ accessToken tokenResult) in
  let* response :=
    (if (status response =? 401)%N then
       let* claims := handleClaimsChallengeFromResponse response RESOURCE in
       if truthy_opt claims then
         let* tokenResult := acquireToken scopes RESOURCE in
         do_fetch (GRAPH_BASE +:+ endpoint)
                  ("Bearer " +:+ accessToken tokenResult)
       else ret response
     else ret response) in
  if negb (response_ok response) then
    let* errorBody := lift (response_text response) in
    throw (Error "Error" (graph_error_message response errorBody))
  else
    let* body := lift (response_text response) in
    lift (JSON_parse body).

(* ================================================================== *)
(** ** Reading the record of a run                                     *)
(* ================================================================== *)

Definition silent_calls (evs : list Event)
  : list (PopupRequest * gmap string string * Completion AuthenticationResult) :=
  omap (fun ev => match ev with
                  | AcquireTokenSilent request storage result =>
                      Some (request, storage, result)
                  | _ => None
                  end) evs.

Definition popup_calls (evs : list Event)
  : list (PopupRequest * gmap string string * Completion AuthenticationResult) :=
  omap (fun ev => match ev with
                  | AcquireTokenPopup request storage result =>
                      Some (request, storage, result)
                  | _ => None
                  end) evs.

Definition fetch_calls (evs : list Event)
  : list (string * string * Completion Response) :=
  omap (fun ev => match ev with
                  | Fetch url authorization result =>
                      Some (url, authorization, result)
                  | _ => None
                  end) evs.

Definition created_clients (evs : list Event) : list (Completion Pca) :=
  omap (fun ev => match ev with
                  | CreateClient _ result => Some result
                  | _ => None
                  end) evs.

(** The thrown value a recorded call settled to, if it failed. *)
Definition event_error (ev : Event) : option JsError :=
  match ev with
  | CreateClient _ (Throw e)
  | AcquireTokenSilent _ _ (Throw e)
  | AcquireTokenPopup _ _ (Throw e)
  | Fetch _ _ (Throw e) => Some e
  | _ => None
  end.

(** The request of a recorded acquisition call. *)
Definition event_request (ev : Event) : option PopupRequest :=
  match ev with
  | AcquireTokenSilent request _ _ | AcquireTokenPopup request _ _ =>
      Some request
  | _ => None
  end.

(* ================================================================== *)
(** ** Interleaved calls of getMsalInstance                            *)
(* ================================================================== *)

(** Execution is cooperative: a call of [getMsalInstance] runs without
    interruption up to its [await], and again from the [await] to its
    return.  A [Call] is where one call stands. *)
Inductive Call : Type :=
| NotCalled
| Suspended (awaited : Completion Pca)
| Settled (result : Completion Pca).

Definition step_call (c : Call) (s : State) : Call * State * list Event :=
  match c with
  | NotCalled =>
      let r := getMsalInstance_enter s in
      match outcome r with
      | Normal (inl pca) => (Settled (Normal pca), final r, events r)
      | Normal (inr awaited) => (Suspended awaited, final r, events r)
      | Throw e => (Settled (Throw e), final r, events r)
      end
  | Suspended awaited =>
      let r := getMsalInstance_resume awaited s in
      (Settled (outcome r), final r, events r)
  | Settled _ => (c, s, [])
  end.

(** Several calls in flight over the shared state. *)
Record System : Type := {
  calls : list Call;
  shared : State;
  history : list Event;
}.

(** The scheduler lets call number [i] run its next piece. *)
Definition step (i : nat) (sys : System) : System :=
  match calls sys !! i with
  | Some c =>
      let '(c', s', evs) := step_call c (shared sys) in
      {| calls := <[i := c']> (calls sys); shared := s';
         history := history sys ++ evs |}
  | None => sys
  end.

Definition run_schedule (schedule : list nat) (sys : System) : System :=
  foldl (fun sys i => step i sys) sys schedule.

Definition two_calls (s : State) : System :=
  {| calls := [NotCalled; NotCalled]; shared := s; history := [] |}.

End Service.

Arguments State W Pca : clear implicits.
Arguments Event Pca : clear implicits.
Arguments Run W Pca A : clear implicits.
Arguments System W Pca : clear implicits.
Arguments Call Pca : clear implicits.
Arguments final {W Pca A} _.
Arguments events {W Pca A} _.
Arguments outcome {W Pca A} _.

(* ================================================================== *)
(** ** A scripted host: the test double of the collaborators           *)
(* ================================================================== *)

Module Scripted.

(** The world of the scripted host: client objects are numbered in the
    order the factory makes them, and each call of the provider or of
    fetch takes the next scripted settlement. *)
Record World : Type := {
  next_client : nat;
  factory_error : option JsError;
  active_account : option AccountInfo;
  cached_accounts : list AccountInfo;
  silent_script : list (Completion AuthenticationResult);
  popup_script : list (Completion AuthenticationResult);
  fetch_script : list (Completion Response);
}.

Definition script_exhausted {A} : Completion A :=
  Throw (Error "Error" "script exhausted").

Definition create (_ : Configuration) (w : World) : World * Completion nat :=
  match factory_error w with
  | Some e => (w, Throw e)
  | None =>
      (Build_World (S (next_client w)) None (active_account w)
         (cached_accounts w) (silent_script w) (popup_script w)
         (fetch_script w),
       Normal (next_client w))
  end.

Definition set_active (_ : nat) (a : AccountInfo) (w : World) : World :=
  Build_World (next_client w) (factory_error w) (Some a) (cached_accounts w)
    (silent_script w) (popup_script w) (fetch_script w).

Definition silent (_ : nat) (_ : PopupRequest) (w : World)
  : World * Completion AuthenticationResult :=
  match silent_script w with
  | [] => (w, script_exhausted)
  | c :: rest =>
      (Build_World (next_client w) (factory_error w) (active_account w)
         (cached_accounts w) rest (popup_script w) (fetch_script w), c)
  end.

Definition popup (_ : nat) (_ : PopupRequest) (w : World)
  : World * Completion AuthenticationResult :=
  match popup_script w with
  | [] => (w, script_exhausted)
  | c :: rest =>
      (Build_World (next_client w) (factory_error w) (active_account w)
         (cached_accounts w) (silent_script w) rest (fetch_script w), c)
  end.

Definition get (_ _ : string) (w : World) : World * Completion Response :=
  match fetch_script w with
  | [] => (w, script_exhausted)
  | c :: rest =>
      (Build_World (next_client w) (factory_error w) (active_account w)
         (cached_accounts w) (silent_script w) (popup_script w) rest, c)
  end.

#[global] Instance host : Host World nat string := {|
  createNestablePublicClientApplication := create;
  pca_getActiveAccount := fun _ w => active_account w;
  pca_getAllAccounts := fun _ w => cached_accounts w;
  pca_setActiveAccount := set_active;
  pca_acquireTokenSilent := silent;
  pca_acquireTokenPopup := popup;
  fetch := get;
  JSON_parse := fun body => Normal body;
|}.

Definition script (silents popups : list (Completion AuthenticationResult))
    (fetches : list (Completion Response)) : World :=
  Build_World 0 None None [] silents popups fetches.

(** A fresh page: no client yet, nothing in the session storage. *)
Definition fresh (w : World) : State World nat :=
  {| msalInstance := None; sessionStorage := ∅; world := w |}.

(** A page whose session storage already holds [value] under [key]. *)
Definition holding (key value : string) (w : World) : State World nat :=
  {| msalInstance := None; sessionStorage := {[ key := value ]}; world := w |}.

Definition token (t : string) : Completion AuthenticationResult :=
  Normal {| accessToken := t; result_account := None |}.

Definition respond (code : N) (text : string) (challenge : option string)
  : Completion Response :=
  Normal {| status := code; statusText := text;
            headers_get := fun name =>
              if String.eqb name "WWW-Authenticate" then challenge else None;
            response_text := Normal "{}" |}.

End Scripted.


(* ================================================================== *)
(** ** Vocabulary of the properties                                    *)
(* ================================================================== *)

(** Lower-casing of ASCII letters, for comparing a piece of text with
    [claims] ignoring case. *)
Definition to_lower (c : ascii) : ascii :=
  let n := N_of_ascii c in
  if ((65 <=? n) && (n <=? 90))%N then ascii_of_N (n + 32) else c.

Fixpoint string_map (f : ascii -> ascii) (s : string) : string :=
  match s with
  | EmptyString => EmptyString
  | String c s' => String (f c) (string_map f s')
  end.

(** [key] reads [claims], in any letter case. *)
Definition is_claims_key (key : string) : Prop :=
  string_map to_lower key = "claims".

Fixpoint quote_free (v : string) : Prop :=
  match v with
  | EmptyString => True
  | String c v' => c <> Platform.dquote /\ quote_free v'
  end.

(** The regular expression matches [h] at index [i] with group [v]:
    from index [i] on, [h] reads [claims] in any letter case, the equals
    sign and a double quote, then [v], a non-empty run of code units
    other than the double quote, then a double quote.  Nothing is asked
    of what comes before index [i]: the matched text may be a whole
    quoted pair of key [claims], the end of a pair with a longer key
    (x_claims), or a piece of another pair's quoted value.  The names
    below say pair for such a match. *)
Definition claims_pair_at (h : string) (i : nat) (v : string) : Prop :=
  exists pre key post,
    h = pre +:+ key +:+ "=" +:+ QUOTE +:+ v +:+ QUOTE +:+ post
    /\ String.length pre = i
    /\ is_claims_key key
    /\ v <> EmptyString
    /\ quote_free v.

(** [v] is the group of the leftmost match in [h]. *)
Definition first_claims_pair (h v : string) : Prop :=
  exists i, claims_pair_at h i v
            /\ forall j v', j < i -> ~ claims_pair_at h j v'.

(** The regular expression matches nowhere in [h]. *)
Definition no_claims_pair (h : string) : Prop :=
  forall i v, ~ claims_pair_at h i v.

(** The reading of the decoding property that speaks of any claims pair
    of the header: whenever [h] holds, at some index, a match whose value
    is valid base64 (a well-formed pair of key [claims] is such a match),
    the parser returns that value decoded. *)
Definition decodes_every_valid_pair (h : string) : Prop :=
  forall i v decoded,
    claims_pair_at h i v ->
    Platform.atob v = Normal decoded ->
    parseClaimsChallengeFromHeader h = Normal (Some decoded).

(** A header with two claims pairs: the first value is not base64, the
    second is. *)
Definition two_pair_header : string :=
  "Bearer claims=" +:+ QUOTE +:+ "!" +:+ QUOTE
    +:+ ", claims=" +:+ QUOTE +:+ "YQ==" +:+ QUOTE.

(** A header whose only pair has a key that ends in [claims]. *)
Definition longer_key_header : string :=
  "Bearer x_claims=" +:+ QUOTE +:+ "YQ==" +:+ QUOTE.

(** A header in which the text [claims=] ends the quoted value of
    another pair, before the claims pair itself. *)
Definition quoted_text_header : string :=
  "error_description=" +:+ QUOTE +:+ "missing claims=" +:+ QUOTE
    +:+ ", claims=" +:+ QUOTE +:+ "YQ==" +:+ QUOTE.

(** *** The ways a run of acquireToken can go *)

Section Paths.

Context {W Pca J : Type} `{!Host W Pca J}.
Variables (wanted : list string) (resource : string) (s : State W Pca).

Definition challenge_key : string := STORAGE_KEY_PREFIX +:+ resource.

Definition stored_challenge : option string :=
  sessionStorage s !! challenge_key.

(** What the request handed to the silent acquisition looks like. *)
Definition request_built (request : PopupRequest) : Prop :=
  scopes request = wanted
  /\ claims request
     = (if truthy_opt stored_challenge then stored_challenge else None)
  /\ forceRefresh request
     = (if truthy_opt stored_challenge then Some true else None).

(** The request and the session storage at the interactive call, after
    a silent failure [e]. *)
Definition interactive_request (e : JsError) (request : PopupRequest)
  : PopupRequest :=
  if truthy (error_claims e) then set_claims (error_claims e) request
  else request.

Definition interactive_storage (e : JsError) : gmap string string :=
  if truthy (error_claims e)
  then <[challenge_key := error_claims e]> (sessionStorage s)
  else sessionStorage s.

(** A run of [acquireToken wanted resource] from [s] either stops at the
    client initialisation, or ends with the silent acquisition (a result,
    or an error other than interaction-required), or goes on to the
    interactive acquisition. *)
Inductive AcquireTokenPath (run : Run W Pca AuthenticationResult) : Prop :=
| InitFailed (e : JsError) :
    outcome (getMsalInstance s) = Throw e ->
    events run = events (getMsalInstance s) ->
    outcome run = Throw e ->
    sessionStorage (final run) = sessionStorage s ->
    AcquireTokenPath run
| SilentSettled (request : PopupRequest)
    (result : Completion AuthenticationResult) :
    is_Normal (outcome (getMsalInstance s)) = true ->
    request_built request ->
    match result with
    | Normal _ => True
    | Throw e => instanceof_InteractionRequiredAuthError e = false
    end ->
    events run
    = events (getMsalInstance s)
      ++ [AcquireTokenSilent request (sessionStorage s) result] ->
    outcome run = result ->
    sessionStorage (final run)
    = match result with
      | Normal _ =>
          if truthy_opt stored_challenge
          then delete challenge_key (sessionStorage s)
          else sessionStorage s
      | Throw _ => sessionStorage s
      end ->
    AcquireTokenPath run
| Interactive (request : PopupRequest) (e : JsError)
    (result : Completion AuthenticationResult) :
    is_Normal (outcome (getMsalInstance s)) = true ->
    request_built request ->
    instanceof_InteractionRequiredAuthError e = true ->
    events run
    = events (getMsalInstance s)
      ++ [AcquireTokenSilent request (sessionStorage s) (Throw e);
          AcquireTokenPopup (interactive_request e request)
            (interactive_storage e) result] ->
    outcome run = result ->
    sessionStorage (final run)
    = match result with
      | Normal _ => delete challenge_key (interactive_storage e)
      | Throw _ => interactive_storage e
      end ->
    AcquireTokenPath run.

End Paths.

(** *** The retry of callGraphWithClaimsRetry *)

(** The challenge header of [response] yields the claims value [c]. *)
Definition yields_claims (response : Response) (c : string) : Prop :=
  status response = 401%N
  /\ exists header,
       headers_get response "WWW-Authenticate" = Some header
       /\ parseClaimsChallengeFromHeader header = Normal (Some c).

(** The reading of the retry property with no condition on the second
    token acquisition: whenever the first response is a 401 whose
    challenge header yields a non-empty claims value, two fetches are
    issued in all. *)
Definition retries_exactly_once {W Pca J : Type} `{!Host W Pca J}
    (endpoint : string) (wanted : list string) (s : State W Pca) : Prop :=
  let run := callGraphWithClaimsRetry endpoint wanted s in
  forall url authorization response rest c,
    fetch_calls (events run) = (url, authorization, Normal response) :: rest ->
    yields_claims response c ->
    c <> EmptyString ->
    length (fetch_calls (events run)) = 2.

Section Vocabulary.
Context {W Pca : Type}.

(** The state after [storeClaimsChallenge resource c]. *)
Definition challenge_stored (resource c : string) (s : State W Pca)
  : State W Pca :=
  {| msalInstance := msalInstance s;
     sessionStorage := <[STORAGE_KEY_PREFIX +:+ resource := c]> (sessionStorage s);
     world := world s |}.

(** A call of [getMsalInstance] that has run its first piece. *)
Definition entered (c : Call Pca) : Prop :=
  match c with
  | NotCalled => False
  | _ => True
  end.

End Vocabulary.

(** The challenge header of the end-to-end scenario of the design. *)
Definition spec_header : string :=
  "Bearer claims=" +:+ QUOTE +:+ "eyJ0ZXN0IjoxfQ==" +:+ QUOTE.

(* ================================================================== *)
(** ** Scenarios on the scripted host                                  *)
(* ================================================================== *)

Module Scenario.
Import Scripted.

Definition graph_key : string := "naa_cae_claims_graph".
Definition decoded_challenge : string := "{" +:+ QUOTE +:+ "test" +:+ QUOTE +:+ ":1}".
Definition user_read : list string := ["User.Read"].

Definition interaction_required (c : string) : Completion AuthenticationResult :=
  Throw (InteractionRequiredAuthError "interaction_required" c).
Definition user_cancelled : Completion AuthenticationResult :=
  Throw (Error "BrowserAuthError" "user_cancelled").
Definition network_down : Completion AuthenticationResult :=
  Throw (Error "BrowserAuthError" "no_network_connectivity").

Definition challenge_response : Response :=
  {| status := 401; statusText := "Unauthorized";
     headers_get := fun name =>
       if String.eqb name "WWW-Authenticate" then Some spec_header else None;
     response_text := Normal "{}" |}.

(** A challenge is pending and the silent acquisition succeeds. *)
Definition pending_silent : State World nat :=
  holding graph_key decoded_challenge (script [token "t2"] [] []).

Definition pending_request : PopupRequest :=
  {| scopes := user_read; claims := Some decoded_challenge; account := None;
     forceRefresh := Some true |}.

(** The provider asks for interaction and attaches claims. *)
Definition stepped_up : State World nat :=
  fresh (script [interaction_required decoded_challenge] [token "t3"] []).

(** The silent acquisition fails for another reason. *)
Definition offline : State World nat :=
  fresh (script [network_down] [token "never"] []).

(** An empty entry is stored. *)
Definition empty_entry : State World nat :=
  holding graph_key EmptyString (script [token "t4"] [] []).

(** The API challenges twice. *)
Definition challenged_twice : State World nat :=
  fresh (script [token "t1"; token "t2"] []
           [Normal challenge_response; Normal challenge_response;
            respond 200 "OK" None]).

(** Interaction is required, without claims; then the API answers. *)
Definition first_sign_in : State World nat :=
  fresh (script [interaction_required EmptyString] [token "t0"]
           [respond 200 "OK" None]).

(** The API challenges once, then answers. *)
Definition challenged_once : State World nat :=
  fresh (script [token "t1"; token "t2"] []
           [Normal challenge_response; respond 200 "OK" None]).

(** The API challenges, and the user cancels the step-up. *)
Definition cancelled_retry : State World nat :=
  fresh (script [token "t1"; interaction_required EmptyString]
           [user_cancelled] [Normal challenge_response; respond 200 "OK" None]).

End Scenario.


(* ================================================================== *)
(** ** The rest of authConfig.ts and authService.ts                    *)
(* ================================================================== *)

(** Default login request. *)
Definition loginRequest : PopupRequest :=
  {| scopes := ["User.Read"]; claims := None; account := None;
     forceRefresh := None |}.

(** [graphScopes.userRead] and [graphScopes.mailRead]. *)
Definition graphScopes_userRead : list string := ["User.Read"].
Definition graphScopes_mailRead : list string := ["Mail.Read"].

Section Login.

Context {W Pca J : Type} `{!Host W Pca J}.

Notation "'let*' x := m 'in' k" := (bind m (fun x => k))
  (at level 10, x name, m at level 100, k at level 200).
Notation "m ;;; k" := (bind m (fun _ => k))
  (at level 100, k at level 200, right associativity).

Definition login : @M W Pca AuthenticationResult :=
  let* pca := getMsalInstance in
  let* result := acquireTokenPopup pca loginRequest in
  (match result_account result with
   | Some a => setActiveAccount pca a
   | None => ret tt
   end) ;;;
  ret result.

End Login.

(** [logout] also calls the client's [clearCache], a method that the
    token acquisition does not need. *)
Class CacheHost (W Pca J : Type) : Type := {
  cache_host :: Host W Pca J;
  pca_clearCache : Pca -> AccountInfo -> W -> W * Completion unit;
}.

Section Logout.

Context {W Pca J : Type} `{!CacheHost W Pca J}.

Notation "'let*' x := m 'in' k" := (bind m (fun x => k))
  (at level 10, x name, m at level 100, k at level 200).

(** [pca.clearCache({ account })]; like [setActiveAccount], it is not a
    call the record of a run keeps. *)
Definition clearCache (pca : Pca) (a : AccountInfo) : @M W Pca unit :=
  fun s : State W Pca =>
    let '(w, c) := pca_clearCache (J := J) pca a (world s) in
    {| final := with_world s w; events := []; outcome := c |}.

Definition logout : @M W Pca unit :=
  let* pca := getMsalInstance in
  let* active := getActiveAccount in
  match active with
  | Some a => clearCache pca a
  | None => ret tt
  end.

End Logout.

(* ================================================================== *)
(** ** composables/useAuth.ts                                          *)
(* ================================================================== *)

(** The composable keeps four refs, shared by every component that uses
    it, and wraps the service functions in actions that never throw.
    An action is run to completion here: what the refs show while two
    actions overlap is not modelled. *)

Module UseAuth.

(** The shared reactive state: the values of the four refs. *)
Record Refs : Type := {
  isAuthenticated : bool;
  account : option AccountInfo;
  isLoading : bool;
  error : option string;
}.

Definition initial : Refs :=
  {| isAuthenticated := false; account := None; isLoading := false;
     error := None |}.

Definition set_isLoading (b : bool) (r : Refs) : Refs :=
  {| isAuthenticated := isAuthenticated r; account := account r;
     isLoading := b; error := error r |}.

Definition set_error (e : option string) (r : Refs) : Refs :=
  {| isAuthenticated := isAuthenticated r; account := account r;
     isLoading := isLoading r; error := e |}.

Definition set_account (a : option AccountInfo) (r : Refs) : Refs :=
  {| isAuthenticated := isAuthenticated r; account := a;
     isLoading := isLoading r; error := error r |}.

Definition set_isAuthenticated (b : bool) (r : Refs) : Refs :=
  {| isAuthenticated := b; account := account r;
     isLoading := isLoading r; error := error r |}.

Section Composable.

Context {W Pca J : Type} `{!CacheHost W Pca J}.

(** [(e as Error).message].  The message of an MSAL error is composed
    from fields the model of thrown values does not keep, so the
    accessor is a parameter. *)
Variable message : JsError -> string.

(** What a piece of the composable gives: the refs, and the run of the
    service code underneath. *)
Record Outcome (A : Type) : Type := {
  refs : Refs;
  run : Run W Pca A;
}.
Arguments refs {A} _.
Arguments run {A} _.

Definition Action (A : Type) : Type := Refs -> State W Pca -> Outcome A.

Definition pure {A} (a : A) : Action A :=
  fun r s => {| refs := r; run := ret a s |}.

(** Service code, which does not see the refs. *)
Definition service {A} (m : @M W Pca A) : Action A :=
  fun r s => {| refs := r; run := m s |}.

(** An assignment to the refs. *)
Definition assign (f : Refs -> Refs) : Action unit :=
  fun r s => {| refs := f r; run := ret tt s |}.

Definition and_then {A B} (m : Action A) (k : A -> Action B) : Action B :=
  fun r s =>
    match m r s with
    | {| refs := r1;
         run := {| final := s1; events := evs1; outcome := Normal a |} |} =>
        match k a r1 s1 with
        | {| refs := r2; run := following |} =>
            {| refs := r2; run := prefixed evs1 following |}
        end
    | {| refs := r1;
         run := {| final := s1; events := evs1; outcome := Throw e |} |} =>
        {| refs := r1;
           run := {| final := s1; events := evs1; outcome := Throw e |} |}
    end.

(** [try { body } catch (e) { handler e } finally { finalizer }], for a
    finalizer that only assigns to the refs. *)
Definition try_catch_finally {A} (body : Action A)
    (handler : JsError -> Action A) (finalizer : Refs -> Refs) : Action A :=
  fun r s =>
    match body r s with
    | {| refs := r1;
         run := {| final := s1; events := evs1; outcome := Normal a |} |} =>
        {| refs := finalizer r1;
           run := {| final := s1; events := evs1; outcome := Normal a |} |}
    | {| refs := r1;
         run := {| final := s1; events := evs1; outcome := Throw e |} |} =>
        match handler e r1 s1 with
        | {| refs := r2; run := handled |} =>
            {| refs := finalizer r2; run := prefixed evs1 handled |}
        end
    end.

Notation "'let*' x := m 'in' k" := (and_then m (fun x => k))
  (at level 10, x name, m at level 100, k at level 200).
Notation "m ;;; k" := (and_then m (fun _ => k))
  (at level 100, k at level 200, right associativity).

Definition authLogin : @M W Pca AuthenticationResult := login.
Definition authLogout : @M W Pca unit := logout.

Definition syncAccountState : Action unit :=
  let* active := service getActiveAccount in
  assign (set_account active) ;;;
  assign (set_isAuthenticated
            (match active with Some _ => true | None => false end)).

(** The [onMounted] hook. *)
Definition onMounted : Action unit :=
  try_catch_finally
    (service getMsalInstance ;;; syncAccountState)
    (fun e => assign (set_error (Some (message e))))
    (fun r => r).

Definition login : Action unit :=
  assign (set_isLoading true) ;;;
  assign (set_error None) ;;;
  try_catch_finally
    (service authLogin ;;; syncAccountState)
    (fun e => assign (set_error (Some (message e))))
    (set_isLoading false).

Definition logout : Action unit :=
  assign (set_isLoading true) ;;;
  assign (set_error None) ;;;
  try_catch_finally
    (service authLogout ;;;
     assign (set_account None) ;;;
     assign (set_isAuthenticated false))
    (fun e => assign (set_error (Some (message e))))
    (set_isLoading false).

(** [scopes ?? graphScopes.userRead] is [default graphScopes_userRead
    scopes]; the result [Some t] is the string t and [None] is null. *)
Definition getToken (scopes : option (list string)) : Action (option string) :=
  assign (set_isLoading true) ;;;
  assign (set_error None) ;;;
  try_catch_finally
    (let* result :=
       service (acquireToken (default graphScopes_userRead scopes) "graph") in
     syncAccountState ;;;
     pure (Some (accessToken result)))
    (fun e => assign (set_error (Some (message e))) ;;; pure None)
    (set_isLoading false).

(** The result [Some data] is the value data and [None] is the null of
    the catch block. *)
Definition callGraph (endpoint : string) (scopes : option (list string))
  : Action (option J) :=
  assign (set_isLoading true) ;;;
  assign (set_error None) ;;;
  try_catch_finally
    (let* data :=
       service (callGraphWithClaimsRetry endpoint
                  (default graphScopes_userRead scopes)) in
     pure (Some data))
    (fun e => assign (set_error (Some (message e))) ;;; pure None)
    (set_isLoading false).

End Composable.

Arguments refs {W Pca A} _.
Arguments run {W Pca A} _.

(** The refs agree with each other: authenticated exactly when an
    account is shown. *)
Definition in_step (r : Refs) : Prop :=
  isAuthenticated r = match account r with Some _ => true | None => false end.

End UseAuth.

(* ================================================================== *)
(** ** Vocabulary of the further properties                            *)
(* ================================================================== *)

Section FurtherVocabulary.
Context {W Pca J : Type} `{!Host W Pca J}.

(** The client reads back the account it was told is active. *)
Definition remembers_active_account : Prop :=
  forall (pca : Pca) (a : AccountInfo) (w : W),
    pca_getActiveAccount (J := J) pca (pca_setActiveAccount (J := J) pca a w)
    = Some a.

(** What [callGraphWithClaimsRetry] makes of the response it ends up
    with: the error built from a response that is not a success, the
    parsed body of one that is. *)
Definition settle_response (response : Response) : Completion J :=
  match response_text response with
  | Throw e => Throw e
  | Normal body =>
      if negb (response_ok response)
      then Throw (Error "Error" (graph_error_message response body))
      else JSON_parse body
  end.

End FurtherVocabulary.

(* ================================================================== *)
(** ** The scripted host, with a cache to clear                        *)
(* ================================================================== *)

Module ScriptedSession.
Import Scripted.

(** Clearing the cache forgets the accounts. *)
Definition clear (_ : nat) (_ : AccountInfo) (w : World)
  : World * Completion unit :=
  (Build_World (next_client w) (factory_error w) None []
     (silent_script w) (popup_script w) (fetch_script w),
   Normal tt).

#[export] Instance session_host : CacheHost World nat string := {|
  cache_host := host;
  pca_clearCache := clear;
|}.

Definition alice : AccountInfo :=
  {| homeAccountId := "a1"; username := "alice@contoso.com" |}.

Definition bob : AccountInfo :=
  {| homeAccountId := "b2"; username := "bob@contoso.com" |}.

(** A result bound to an account. *)
Definition token_for (a : AccountInfo) (t : string)
  : Completion AuthenticationResult :=
  Normal {| accessToken := t; result_account := Some a |}.

(** A page whose client (object 0) exists, with accounts in its cache. *)
Definition signed_in (active : option AccountInfo)
    (cached : list AccountInfo) (storage : gmap string string)
    (silents popups : list (Completion AuthenticationResult))
    (fetches : list (Completion Response)) : State World nat :=
  {| msalInstance := Some 0; sessionStorage := storage;
     world := Build_World 1 None active cached silents popups fetches |}.

(** The message of a thrown value, for the scripted scenarios. *)
Definition message (e : JsError) : string :=
  match e with
  | Error _ m => m
  | InteractionRequiredAuthError code _ => code
  end.

Definition mail_key : string := "naa_cae_claims_mail".

(** Challenges are pending for two resources. *)
Definition two_resources : State World nat :=
  {| msalInstance := None;
     sessionStorage :=
       <[Scenario.graph_key := Scenario.decoded_challenge]>
         {[ mail_key := "mail-challenge" ]};
     world := script [token "t2"] [] [] |}.


(** Two accounts are cached, none is active yet. *)
Definition returning_user : State World nat :=
  signed_in None [alice; bob] ∅ [token_for alice "t5"] [] [].

Definition returning_request : PopupRequest :=
  {| scopes := Scenario.user_read; claims := None; account := Some alice;
     forceRefresh := None |}.

(** The first sign-in of a page. *)
Definition first_login : State World nat :=
  fresh (script [] [token_for alice "t6"] []).

(** The network is down when the API is called. *)
Definition fetch_failed : JsError := Error "TypeError" "Failed to fetch".

Definition unreachable : State World nat :=
  fresh (script [token "t1"] [] [Throw fetch_failed]).

(** The API answers 404. *)
Definition not_found_response : Response :=
  {| status := 404; statusText := "Not Found";
     headers_get := fun _ => None;
     response_text := Normal "{}" |}.

Definition not_found : State World nat :=
  fresh (script [token "t1"] [] [Normal not_found_response]).

(** The API challenges, and the body of its second answer, a 401 again,
    cannot be read. *)
Definition body_lost : JsError := Error "TypeError" "Failed to fetch".

Definition unreadable_response : Response :=
  {| status := 401; statusText := "Unauthorized";
     headers_get := fun _ => None;
     response_text := Throw body_lost |}.

Definition retry_unreadable : State World nat :=
  fresh (script [token "t1"; token "t2"] []
           [Normal Scenario.challenge_response; Normal unreadable_response]).

(** A challenge for another resource is pending while the API
    challenges once. *)
Definition mail_pending : State World nat :=
  holding mail_key "mail-challenge"
    (script [token "t1"; token "t2"] []
       [Normal Scenario.challenge_response; respond 200 "OK" None]).

End ScriptedSession.


(* ================================================================== *)
(** * Properties                                                       *)
(* ================================================================== *)

(** ** Truthiness *)

Lemma truthy_true (s : string) : truthy s = true <-> s <> EmptyString.
Proof. destruct s; simpl; split; congruence. Qed.

Lemma truthy_opt_true (o : option string) :
  truthy_opt o = true <-> exists s, o = Some s /\ s <> EmptyString.
Proof.
  destruct o as [s|]; simpl.
  - rewrite truthy_true. split.
    + intros H. exists s. split; [reflexivity | exact H].
    + intros (s' & Heq & Hne). congruence.
  - split; [discriminate | intros (s' & Heq & _); discriminate].
Qed.

(** [atob] on the test vectors of RFC 4648, without padding, with white
    space, and on strings it rejects. *)
Example atob_vectors :
  Platform.atob "Zg==" = Normal "f"
  /\ Platform.atob "Zm8=" = Normal "fo"
  /\ Platform.atob "Zm9v" = Normal "foo"
  /\ Platform.atob "Zm9vYg==" = Normal "foob"
  /\ Platform.atob "Zm9vYmE=" = Normal "fooba"
  /\ Platform.atob "Zm9vYmFy" = Normal "foobar"
  /\ Platform.atob "Zm8" = Normal "fo"
  /\ Platform.atob " Zm 9v " = Normal "foo"
  /\ Platform.atob " " = Normal EmptyString
  /\ is_Normal (Platform.atob "Z") = false
  /\ is_Normal (Platform.atob "Zm9v=") = false
  /\ is_Normal (Platform.atob "Zm=v") = false
  /\ is_Normal (Platform.atob "{}") = false.
Proof. vm_compute. repeat split; reflexivity. Qed.

Example parse_spec_scenario :
  parseClaimsChallengeFromHeader
    ("Bearer claims=" +:+ QUOTE +:+ "eyJ0ZXN0IjoxfQ==" +:+ QUOTE)
  = Normal (Some ("{" +:+ QUOTE +:+ "test" +:+ QUOTE +:+ ":1}")).
Proof. vm_compute. reflexivity. Qed.

(** The key in capitals, after other quoted pairs (one of them empty)
    and before another. *)
Example parse_among_other_pairs :
  parseClaimsChallengeFromHeader
    ("Bearer realm=" +:+ QUOTE +:+ QUOTE
       +:+ ", error=" +:+ QUOTE +:+ "insufficient_claims" +:+ QUOTE
       +:+ ", CLAIMS=" +:+ QUOTE +:+ "eyJ0ZXN0IjoxfQ==" +:+ QUOTE
       +:+ ", client_id=" +:+ QUOTE +:+ "0000" +:+ QUOTE)
  = Normal (Some ("{" +:+ QUOTE +:+ "test" +:+ QUOTE +:+ ":1}")).
Proof. vm_compute. reflexivity. Qed.

Lemma string_app_assoc (a b c : string) : (a +:+ b) +:+ c = a +:+ b +:+ c.
Proof.
  induction a as [|x a IH]; [reflexivity|].
  change (String x ((a +:+ b) +:+ c) = String x (a +:+ b +:+ c)).
  rewrite IH. reflexivity.
Qed.

Section Regex.
Import Platform.

(** Case analysis over the 256 code units. *)
Ltac each_code_unit c :=
  destruct c as [[] [] [] [] [] [] [] []]; vm_compute; try tauto;
  try (split; congruence).

Lemma folds_to_letter (p c : ascii) :
  In p (list_ascii_of_string "claims") ->
  Ascii.eqb (canonicalize p) (canonicalize c) = true <-> to_lower c = p.
Proof.
  simpl. intros [<-|[<-|[<-|[<-|[<-|[<-|[]]]]]]]; each_code_unit c.
Qed.

Lemma folds_to_other (p c : ascii) :
  p = "="%char \/ p = dquote ->
  Ascii.eqb (canonicalize p) (canonicalize c) = true <-> c = p.
Proof.
  intros [->| ->]; each_code_unit c.
Qed.

Lemma match_literal_i_spec (pat s rest : string) :
  match_literal_i pat s = Some rest <->
  exists lit, s = lit +:+ rest
              /\ string_map canonicalize lit = string_map canonicalize pat.
Proof.
  revert s. induction pat as [|p pat IH]; intros s; simpl.
  - split.
    + intros [= ->]. exists EmptyString. split; reflexivity.
    + intros (lit & -> & Hlit). destruct lit; [reflexivity | discriminate].
  - destruct s as [|c s].
    + split; [discriminate |].
      intros (lit & Hs & Hlit). destruct lit; discriminate.
    + destruct (Ascii.eqb_spec (canonicalize p) (canonicalize c)) as [Heq|Hne].
      * rewrite IH. split.
        -- intros (lit & -> & Hlit). exists (String c lit). simpl.
           split; [reflexivity | congruence].
        -- intros (lit & Hs & Hlit). destruct lit as [|c' lit]; [discriminate|].
           simpl in Hs, Hlit. injection Hs as -> ->. injection Hlit as _ Hlit.
           exists lit. split; [reflexivity | exact Hlit].
      * split; [discriminate |].
        intros (lit & Hs & Hlit). destruct lit as [|c' lit]; [discriminate|].
        simpl in Hs, Hlit. injection Hs as -> ->. injection Hlit as Hc _.
        congruence.
Qed.

Lemma canonicalize_eqb (p c : ascii) :
  canonicalize c = canonicalize p <->
  Ascii.eqb (canonicalize p) (canonicalize c) = true.
Proof. rewrite Ascii.eqb_eq. split; congruence. Qed.

Lemma claims_literal_spec (lit : string) :
  string_map canonicalize lit = string_map canonicalize claims_literal <->
  exists key, lit = key +:+ "=" +:+ QUOTE /\ is_claims_key key.
Proof.
  unfold is_claims_key. split.
  - intros H.
    destruct lit as [|k1 [|k2 [|k3 [|k4 [|k5 [|k6 [|eq [|qt [|]]]]]]]]];
      try discriminate H.
    injection H as H1 H2 H3 H4 H5 H6 H7 H8.
    apply canonicalize_eqb, folds_to_letter in H1, H2, H3, H4, H5, H6;
      simpl; auto 10.
    apply canonicalize_eqb, folds_to_other in H7, H8; auto.
    subst eq qt.
    exists (String k1 (String k2 (String k3 (String k4 (String k5
              (String k6 EmptyString)))))).
    split; [reflexivity |]. simpl. congruence.
  - intros (key & -> & Hkey).
    destruct key as [|k1 [|k2 [|k3 [|k4 [|k5 [|k6 [|]]]]]]];
      try discriminate Hkey.
    injection Hkey as H1 H2 H3 H4 H5 H6.
    apply folds_to_letter, canonicalize_eqb in H1, H2, H3, H4, H5, H6;
      simpl; auto 10.
    simpl. unfold claims_literal. simpl. congruence.
Qed.


Lemma group_then_quote_sound (s v : string) :
  match_group_then_quote s = Some v ->
  v <> EmptyString /\ quote_free v /\ exists post, s = v +:+ QUOTE +:+ post.
Proof.
  revert v. induction s as [|c s IH]; intros v; simpl; [discriminate|].
  destruct (Ascii.eqb_spec c dquote) as [->|Hc]; [discriminate|].
  destruct (match_group_then_quote s) as [v'|] eqn:Hrec.
  - intros [= <-]. destruct (IH v' eq_refl) as (_ & Hfree & post & ->).
    split; [discriminate|]. split; [split; assumption|].
    exists post. reflexivity.
  - destruct s as [|c' s]; [discriminate|].
    destruct (Ascii.eqb_spec c' dquote) as [->|Hc']; [|discriminate].
    intros [= <-]. split; [discriminate|]. split; [split; [assumption|exact I]|].
    exists s. reflexivity.
Qed.

Lemma group_then_quote_complete (v post : string) :
  v <> EmptyString -> quote_free v ->
  match_group_then_quote (v +:+ QUOTE +:+ post) = Some v.
Proof.
  induction v as [|c v IH]; intros Hne Hfree; [congruence|].
  destruct Hfree as [Hc Hfree]. simpl.
  destruct (Ascii.eqb_spec c dquote) as [Heq|_]; [contradiction|].
  destruct v as [|c' v].
  - reflexivity.
  - rewrite IH; [reflexivity | discriminate | assumption].
Qed.

Lemma claimsRegex_at_spec (s v : string) :
  claimsRegex_at s = Some v <-> claims_pair_at s 0 v.
Proof.
  unfold claimsRegex_at, claims_pair_at. split.
  - destruct (match_literal_i claims_literal s) as [rest|] eqn:Hlit;
      [|discriminate].
    intros Hgroup.
    apply match_literal_i_spec in Hlit as (lit & -> & Hlit).
    apply claims_literal_spec in Hlit as (key & -> & Hkey).
    apply group_then_quote_sound in Hgroup as (Hne & Hfree & post & ->).
    exists EmptyString, key, post. simpl.
    rewrite !string_app_assoc. auto.
  - intros (pre & key & post & -> & Hpre & Hkey & Hne & Hfree).
    destruct pre; [|discriminate Hpre].
    change (EmptyString +:+ key +:+ "=" +:+ QUOTE +:+ v +:+ QUOTE +:+ post)
      with (key +:+ "=" +:+ QUOTE +:+ v +:+ QUOTE +:+ post).
    assert (Hlit : match_literal_i claims_literal
                     (key +:+ "=" +:+ QUOTE +:+ v +:+ QUOTE +:+ post)
                   = Some (v +:+ QUOTE +:+ post)).
    { apply match_literal_i_spec. exists (key +:+ "=" +:+ QUOTE). split.
      - rewrite !string_app_assoc. reflexivity.
      - apply claims_literal_spec. exists key. auto. }
    rewrite Hlit. apply group_then_quote_complete; assumption.
Qed.

Lemma claims_pair_at_shift (c : ascii) (s : string) (i : nat) (v : string) :
  claims_pair_at (String c s) (S i) v <-> claims_pair_at s i v.
Proof.
  unfold claims_pair_at. split.
  - intros (pre & key & post & Hs & Hpre & Hrest).
    destruct pre as [|c' pre]; [discriminate Hpre|].
    simpl in Hs, Hpre. injection Hs as -> ->. injection Hpre as Hpre.
    exists pre, key, post. auto.
  - intros (pre & key & post & -> & Hpre & Hrest).
    exists (String c pre), key, post. simpl. auto.
Qed.

Lemma claims_pair_at_empty (i : nat) (v : string) :
  ~ claims_pair_at EmptyString i v.
Proof.
  intros (pre & key & post & Hs & _ & Hkey & _).
  destruct pre; [|discriminate Hs].
  destruct key; [discriminate Hkey | discriminate Hs].
Qed.

Lemma claimsRegex_exec_None (h : string) :
  claimsRegex_exec h = None -> no_claims_pair h.
Proof.
  induction h as [|c h IH]; simpl.
  - intros _ i v. apply claims_pair_at_empty.
  - destruct (claimsRegex_at (String c h)) as [v0|] eqn:Hat; [discriminate|].
    intros Hrec [|i] v Hpair.
    + apply claimsRegex_at_spec in Hpair. congruence.
    + apply claims_pair_at_shift in Hpair. exact (IH Hrec i v Hpair).
Qed.

Lemma claimsRegex_exec_Some (h v : string) :
  claimsRegex_exec h = Some v -> first_claims_pair h v.
Proof.
  induction h as [|c h IH]; simpl.
  - destruct (claimsRegex_at EmptyString) eqn:Hat; [|discriminate].
    apply claimsRegex_at_spec in Hat. destruct (claims_pair_at_empty _ _ Hat).
  - destruct (claimsRegex_at (String c h)) as [v0|] eqn:Hat.
    + intros [= ->]. exists 0. split.
      * apply claimsRegex_at_spec. exact Hat.
      * intros j v' Hj. lia.
    + intros Hrec. destruct (IH Hrec) as (i & Hpair & Hfirst).
      exists (S i). split.
      * apply claims_pair_at_shift. exact Hpair.
      * intros [|j] v' Hj Hpair'.
        -- apply claimsRegex_at_spec in Hpair'. congruence.
        -- apply claims_pair_at_shift in Hpair'.
           apply (Hfirst j v'); [lia | exact Hpair'].
Qed.

Lemma claims_pair_at_functional (h : string) (i : nat) (v v' : string) :
  claims_pair_at h i v -> claims_pair_at h i v' -> v = v'.
Proof.
  revert i. induction h as [|c h IH]; intros i Hv Hv'.
  - destruct (claims_pair_at_empty _ _ Hv).
  - destruct i as [|i].
    + apply claimsRegex_at_spec in Hv, Hv'. congruence.
    + apply claims_pair_at_shift in Hv, Hv'. exact (IH i Hv Hv').
Qed.

Lemma first_claims_pair_exec (h v : string) :
  first_claims_pair h v -> claimsRegex_exec h = Some v.
Proof.
  intros (i & Hpair & Hfirst).
  destruct (claimsRegex_exec h) as [v'|] eqn:Hexec.
  - apply claimsRegex_exec_Some in Hexec as (i' & Hpair' & Hfirst').
    destruct (Nat.lt_trichotomy i i') as [Hlt|[->|Hgt]].
    + destruct (Hfirst' i v Hlt Hpair).
    + f_equal. exact (claims_pair_at_functional h i' v' v Hpair' Hpair).
    + destruct (Hfirst i' v' Hgt Hpair').
  - apply claimsRegex_exec_None in Hexec. destruct (Hexec i v Hpair).
Qed.

Lemma no_claims_pair_exec (h : string) :
  no_claims_pair h -> claimsRegex_exec h = None.
Proof.
  intros Hnone. destruct (claimsRegex_exec h) as [v|] eqn:Hexec; [|reflexivity].
  apply claimsRegex_exec_Some in Hexec as (i & Hpair & _).
  destruct (Hnone i v Hpair).
Qed.

End Regex.

Lemma first_claims_pair_truthy (h v : string) :
  first_claims_pair h v -> truthy v = true.
Proof.
  intros (i & (pre & key & post & _ & _ & _ & Hne & _) & _).
  apply truthy_true. exact Hne.
Qed.

Lemma parse_first_pair (h v : string) :
  first_claims_pair h v ->
  parseClaimsChallengeFromHeader h =
    match Platform.atob v with
    | Normal decoded => Normal (Some decoded)
    | Throw _ => Normal (Some v)
    end.
Proof.
  intros Hfirst. unfold parseClaimsChallengeFromHeader.
  rewrite (first_claims_pair_exec h v Hfirst).
  rewrite (first_claims_pair_truthy h v Hfirst). simpl.
  destruct (Platform.atob v); reflexivity.
Qed.

Lemma parse_never_throws (h : string) :
  exists r, parseClaimsChallengeFromHeader h = Normal r.
Proof.
  unfold parseClaimsChallengeFromHeader.
  destruct (Platform.claimsRegex_exec h) as [v|]; [|eauto].
  destruct (truthy v); simpl; [|eauto].
  destruct (Platform.atob v); simpl; eauto.
Qed.

(** C7 (amended).  The parser looks at the leftmost match of its
    regular expression and at nothing else: the leftmost place where the
    header reads [claims] in any letter case, the equals sign and a
    double quote, followed by one or more characters other than the
    double quote and a closing double quote.  What precedes that place
    plays no part, so the end of a longer key or a piece of another
    quoted value is matched as well.  When the characters between the
    quotes of that leftmost match are valid base64, the parser returns
    them decoded; and it returns nothing exactly when the header holds no
    match at all. *)
Theorem parse_decodes_first_claims_pair (h : string) :
  (forall v decoded,
      first_claims_pair h v ->
      Platform.atob v = Normal decoded ->
      parseClaimsChallengeFromHeader h = Normal (Some decoded))
  /\ (no_claims_pair h <-> parseClaimsChallengeFromHeader h = Normal None).
Proof.
  split; [|split].
  - intros v decoded Hfirst Hatob.
    rewrite (parse_first_pair h v Hfirst), Hatob. reflexivity.
  - intros Hnone. unfold parseClaimsChallengeFromHeader.
    rewrite (no_claims_pair_exec h Hnone). reflexivity.
  - intros Hnothing.
    destruct (Platform.claimsRegex_exec h) as [v|] eqn:Hexec;
      [|exact (claimsRegex_exec_None h Hexec)].
    apply claimsRegex_exec_Some in Hexec.
    rewrite (parse_first_pair h v Hexec) in Hnothing.
    destruct (Platform.atob v); discriminate Hnothing.
Qed.

(** The two ways in which the leftmost match is not the claims pair of
    the header.  The end of a longer key is matched: *)
Example parse_matches_the_end_of_a_longer_key :
  claims_pair_at longer_key_header 9 "YQ=="
  /\ parseClaimsChallengeFromHeader longer_key_header = Normal (Some "a").
Proof.
  split; [|vm_compute; reflexivity].
  exists "Bearer x_", "claims", EmptyString.
  split; [reflexivity|]. split; [reflexivity|]. split; [reflexivity|].
  split; [discriminate|]. vm_compute. repeat split; discriminate.
Qed.

(** and so is text inside the quoted value of another pair, in which
    case what is returned is the text up to the next double quote, not
    the value of the claims pair that follows. *)
Example parse_matches_inside_a_quoted_value :
  claims_pair_at quoted_text_header 27 ", claims="
  /\ claims_pair_at quoted_text_header 37 "YQ=="
  /\ parseClaimsChallengeFromHeader quoted_text_header
     = Normal (Some ", claims=").
Proof.
  split; [|split; [|vm_compute; reflexivity]].
  - exists ("error_description=" +:+ QUOTE +:+ "missing "), "claims",
      ("YQ==" +:+ QUOTE).
    split; [reflexivity|]. split; [reflexivity|]. split; [reflexivity|].
    split; [discriminate|]. vm_compute. repeat split; discriminate.
  - exists ("error_description=" +:+ QUOTE +:+ "missing claims=" +:+ QUOTE
            +:+ ", "), "claims", EmptyString.
    split; [reflexivity|]. split; [reflexivity|]. split; [reflexivity|].
    split; [discriminate|]. vm_compute. repeat split; discriminate.
Qed.

Lemma claims_pair_at_intro (pre key v post : string) :
  is_claims_key key -> v <> EmptyString -> quote_free v ->
  claims_pair_at (pre +:+ key +:+ "=" +:+ QUOTE +:+ v +:+ QUOTE +:+ post)
    (String.length pre) v.
Proof. intros Hkey Hne Hfree. exists pre, key, post. auto. Qed.

Lemma two_pair_header_second_pair : claims_pair_at two_pair_header 19 "YQ==".
Proof.
  apply (claims_pair_at_intro ("Bearer claims=" +:+ QUOTE +:+ "!" +:+ QUOTE +:+ ", ")
           "claims" "YQ==" EmptyString).
  - reflexivity.
  - discriminate.
  - vm_compute. repeat split; discriminate.
Qed.

(** C7 (counterexample).  The header [two_pair_header] holds, after a
    comma and a space, the well-formed pair of key [claims] and value
    [YQ==], which is valid base64 for [a], and the parser returns the raw
    value of the pair before it. *)
Lemma two_pair_header_not_decoded : ~ decodes_every_valid_pair two_pair_header.
Proof.
  intros H.
  specialize (H 19 "YQ==" "a" two_pair_header_second_pair eq_refl).
  vm_compute in H. discriminate H.
Qed.

Lemma parse_decodes_first_claims_pair_witness :
  parseClaimsChallengeFromHeader spec_header
  = Normal (Some ("{" +:+ QUOTE +:+ "test" +:+ QUOTE +:+ ":1}"))
  /\ parseClaimsChallengeFromHeader "Bearer realm=x" = Normal None.
Proof.
  split.
  - apply (proj1 (parse_decodes_first_claims_pair spec_header) "eyJ0ZXN0IjoxfQ==").
    + apply claimsRegex_exec_Some. vm_compute. reflexivity.
    + vm_compute. reflexivity.
  - apply (proj1 (proj2 (parse_decodes_first_claims_pair "Bearer realm=x"))).
    apply claimsRegex_exec_None. vm_compute. reflexivity.
Defined.

(** C8.  The parser never throws, and when the value of the claims
    pair it extracts (the leftmost one) is not valid base64, so that
    [atob] throws, it returns that raw value unchanged. *)
Theorem parse_returns_raw_value_when_not_base64 (h : string) :
  (exists r, parseClaimsChallengeFromHeader h = Normal r)
  /\ (forall v,
        first_claims_pair h v ->
        is_Normal (Platform.atob v) = false ->
        parseClaimsChallengeFromHeader h = Normal (Some v)).
Proof.
  split.
  - apply parse_never_throws.
  - intros v Hfirst Hinvalid. rewrite (parse_first_pair h v Hfirst).
    destruct (Platform.atob v); [discriminate Hinvalid | reflexivity].
Qed.

Lemma parse_returns_raw_value_when_not_base64_witness :
  parseClaimsChallengeFromHeader two_pair_header = Normal (Some "!").
Proof.
  apply (proj2 (parse_returns_raw_value_when_not_base64 two_pair_header) "!").
  - apply claimsRegex_exec_Some. vm_compute. reflexivity.
  - vm_compute. reflexivity.
Defined.

(* ================================================================== *)
(** ** Runs of the service code                                        *)
(* ================================================================== *)

Section Monad.
Context {W Pca J : Type} `{!Host W Pca J}.

Lemma bind_Normal {A B} (m : M A) (k : A -> M B) (s s1 : State W Pca)
    (evs : list (Event Pca)) (a : A) :
  m s = {| final := s1; events := evs; outcome := Normal a |} ->
  bind m k s = prefixed evs (k a s1).
Proof. intros Hm. unfold bind. rewrite Hm. reflexivity. Qed.

Lemma bind_Throw {A B} (m : M A) (k : A -> M B) (s s1 : State W Pca)
    (evs : list (Event Pca)) (e : JsError) :
  m s = {| final := s1; events := evs; outcome := Throw e |} ->
  bind m k s = {| final := s1; events := evs; outcome := Throw e |}.
Proof. intros Hm. unfold bind. rewrite Hm. reflexivity. Qed.

Lemma prefixed_events {A} (evs : list (Event Pca)) (r : Run W Pca A) :
  events (prefixed evs r) = evs ++ events r.
Proof. destruct r; reflexivity. Qed.

Lemma prefixed_outcome {A} (evs : list (Event Pca)) (r : Run W Pca A) :
  outcome (prefixed evs r) = outcome r.
Proof. destruct r; reflexivity. Qed.

Lemma prefixed_final {A} (evs : list (Event Pca)) (r : Run W Pca A) :
  final (prefixed evs r) = final r.
Proof. destruct r; reflexivity. Qed.

(** [getMsalInstance] run on its own. *)
Lemma getMsalInstance_cached (s : State W Pca) (pca : Pca) :
  msalInstance s = Some pca ->
  getMsalInstance s = {| final := s; events := []; outcome := Normal pca |}.
Proof.
  intros Hinst. unfold getMsalInstance, getMsalInstance_enter, read_msalInstance, bind, ret.
  rewrite Hinst. reflexivity.
Qed.

Lemma getMsalInstance_created (s : State W Pca) (w : W) (c : Completion Pca) :
  msalInstance s = None ->
  createNestablePublicClientApplication msalConfig (world s) = (w, c) ->
  getMsalInstance s =
    {| final := match c with
                | Normal pca =>
                    {| msalInstance := Some pca;
                       sessionStorage := sessionStorage s; world := w |}
                | Throw _ => with_world s w
                end;
       events := [CreateClient msalConfig c];
       outcome := c |}.
Proof.
  intros Hinst Hcreate.
  unfold getMsalInstance, getMsalInstance_enter, getMsalInstance_resume,
    read_msalInstance, write_msalInstance, lift, bind, ret.
  rewrite Hinst, Hcreate. destruct c; reflexivity.
Qed.

Lemma getMsalInstance_run (s : State W Pca) :
  sessionStorage (final (getMsalInstance s)) = sessionStorage s
  /\ (events (getMsalInstance s) = []
      \/ exists c, events (getMsalInstance s) = [CreateClient msalConfig c]
                   /\ (forall e, c = Throw e -> outcome (getMsalInstance s) = Throw e))
  /\ (forall pca, outcome (getMsalInstance s) = Normal pca ->
                  msalInstance (final (getMsalInstance s)) = Some pca).
Proof.
  destruct (msalInstance s) as [pca|] eqn:Hinst.
  - rewrite (getMsalInstance_cached s pca Hinst). simpl.
    split; [reflexivity|]. split; [left; reflexivity|]. congruence.
  - destruct (createNestablePublicClientApplication msalConfig (world s))
      as [w c] eqn:Hcreate.
    rewrite (getMsalInstance_created s w c Hinst Hcreate). simpl.
    split; [destruct c; reflexivity|].
    split; [right; exists c; split; [reflexivity | tauto]|].
    intros pca ->. reflexivity.
Qed.

(** [getActiveAccount] touches only the world, and records nothing. *)
Lemma getActiveAccount_run (s : State W Pca) :
  exists w a,
    getActiveAccount s =
      {| final := with_world s w; events := []; outcome := Normal a |}.
Proof.
  unfold getActiveAccount, read_msalInstance, read_world, setActiveAccount,
    bind, ret.
  destruct s as [inst storage w]. simpl. destruct inst as [pca|]; simpl.
  - destruct (pca_getActiveAccount pca w) as [a|]; simpl.
    + exists w, (Some a). reflexivity.
    + destruct (pca_getAllAccounts pca w) as [|first rest]; simpl.
      * exists w, None. reflexivity.
      * exists (pca_setActiveAccount pca first w), (Some first). reflexivity.
  - exists w, None. reflexivity.
Qed.
End Monad.


Section PathsOfAcquireToken.
Context {W Pca J : Type} `{!Host W Pca J}.
Variables (wanted : list string) (resource : string) (s : State W Pca).

Ltac unfold_service :=
  unfold getStoredClaimsChallenge,
    clearClaimsChallenge, storeClaimsChallenge, acquireTokenSilent,
    acquireTokenPopup, setActiveAccount, sessionStorage_getItem,
    sessionStorage_setItem, sessionStorage_removeItem, host_call, try_catch,
    bind, prefixed, ret, throw, lift, with_world.

Ltac settle_path Hinit Hstored :=
  match goal with
  | |- AcquireTokenPath _ _ _
         {| events := _ ++ [AcquireTokenSilent ?r _ (Throw ?e0);
                            AcquireTokenPopup _ _ ?c] |} =>
      apply Interactive with (request := r) (e := e0) (result := c)
  | |- AcquireTokenPath _ _ _
         {| events := _ ++ [AcquireTokenSilent ?r _ ?c] |} =>
      apply SilentSettled with (request := r) (result := c)
  end;
  rewrite ?Hinit;
  unfold request_built, stored_challenge, challenge_key, interactive_storage,
    interactive_request;
  rewrite ?Hstored; simpl; auto.

Lemma acquireToken_path :
  AcquireTokenPath wanted resource s (acquireToken wanted resource s).
Proof.
  pose proof (getMsalInstance_run s) as (Hstorage & _ & Hinst).
  unfold acquireToken.
  destruct (getMsalInstance s) as [s0 evs0 [pca|e]] eqn:Hinit; simpl in *.
  2:{ erewrite bind_Throw by eassumption.
      eapply InitFailed; rewrite ?Hinit; simpl; eauto. }
  erewrite bind_Normal by eassumption.
  destruct (getActiveAccount_run s0) as (w1 & a & Haccount).
  erewrite bind_Normal by eassumption.
  clear Haccount Hinst. destruct s0 as [inst0 storage0 w0]. simpl in Hstorage.
  subst storage0.
  unfold_service. unfold buildGraphRequest. destruct a as [active|]; simpl.
  all: destruct (sessionStorage s !! (STORAGE_KEY_PREFIX +:+ resource))
         as [[|ch c]|] eqn:Hstored; simpl.
  all: match goal with
       | |- context [pca_acquireTokenSilent ?p ?r ?w] =>
           destruct (pca_acquireTokenSilent p r w) as [w2 [result|e]] eqn:Hsilent
       end; simpl.
  all: try (destruct (result_account result); simpl;
            settle_path Hinit Hstored; fail).
  all: destruct e as [code [|ch' ec]|name msg]; simpl.
  all: try (settle_path Hinit Hstored; fail).
  all: match goal with
       | |- context [pca_acquireTokenPopup ?p ?r ?w] =>
           destruct (pca_acquireTokenPopup p r w) as [w3 [result|e]] eqn:Hpopup
       end; simpl.
  all: try (destruct (result_account result); simpl).
  all: settle_path Hinit Hstored.
Qed.
End PathsOfAcquireToken.

Section AcquireToken.
Context {W Pca J : Type} `{!Host W Pca J}.
Variables (wanted : list string) (resource : string) (s : State W Pca).

Lemma init_records_no_acquisition :
  silent_calls (events (getMsalInstance s)) = []
  /\ popup_calls (events (getMsalInstance s)) = []
  /\ fetch_calls (events (getMsalInstance s)) = [].
Proof.
  destruct (getMsalInstance_run s) as (_ & [Hev | (c & Hev & _)] & _);
    rewrite Hev; repeat split; reflexivity.
Qed.

Lemma getStoredClaimsChallenge_outcome (r : string) (s' : State W Pca) :
  outcome (getStoredClaimsChallenge r s')
  = Normal (sessionStorage s' !! (STORAGE_KEY_PREFIX +:+ r)).
Proof. reflexivity. Qed.


Lemma silent_calls_app (a b : list (Event Pca)) :
  silent_calls (a ++ b) = silent_calls a ++ silent_calls b.
Proof. apply omap_app. Qed.

Lemma popup_calls_app (a b : list (Event Pca)) :
  popup_calls (a ++ b) = popup_calls a ++ popup_calls b.
Proof. apply omap_app. Qed.

Lemma fetch_calls_app (a b : list (Event Pca)) :
  fetch_calls (a ++ b) = fetch_calls a ++ fetch_calls b.
Proof. apply omap_app. Qed.

(** The acquisition calls of a run, path by path. *)
Lemma path_silent_calls (run : Run W Pca AuthenticationResult) :
  AcquireTokenPath wanted resource s run ->
  (is_Normal (outcome (getMsalInstance s)) = false
   /\ silent_calls (events run) = [])
  \/ (is_Normal (outcome (getMsalInstance s)) = true
      /\ exists request result,
           request_built wanted resource s request
           /\ silent_calls (events run)
              = [(request, sessionStorage s, result)]).
Proof.
  destruct (init_records_no_acquisition) as (Hsilent & _ & _).
  intros [e Hinit Hev _ _
         | request result Hinit Hreq _ Hev _ _
         | request e result Hinit Hreq _ Hev _ _];
    rewrite Hev, ?silent_calls_app, ?Hsilent.
  - left. rewrite Hinit. auto.
  - right. split; [assumption|]. exists request, result. auto.
  - right. split; [assumption|]. exists request, (Throw e). auto.
Qed.

(** C1.  In every run of [acquireToken wanted resource], the request
    handed to the silent acquisition carries [claims = c] and
    [forceRefresh = true] when the challenge store holds a non-empty
    string [c] for the resource, and has neither field set when nothing
    is stored.  The silent acquisition is called exactly once whenever
    the provider client is available. *)
Theorem acquireToken_silent_request_carries_stored_challenge :
  let run := acquireToken wanted resource s in
  (is_Normal (outcome (getMsalInstance s)) = true ->
   length (silent_calls (events run)) = 1)
  /\ forall request storage result,
       In (request, storage, result) (silent_calls (events run)) ->
       (forall c,
           outcome (getStoredClaimsChallenge resource s) = Normal (Some c) ->
           c <> EmptyString ->
           claims request = Some c /\ forceRefresh request = Some true)
       /\ (outcome (getStoredClaimsChallenge resource s) = Normal None ->
           claims request = None /\ forceRefresh request = None).
Proof.
  intros run.
  destruct (path_silent_calls run (acquireToken_path wanted resource s))
    as [(Hinit & Hcalls) | (Hinit & request & result & Hreq & Hcalls)];
    rewrite Hcalls.
  - split; [congruence | intros ? ? ? []].
  - split; [reflexivity|].
    intros request' storage' result' [[= <- <- <-] | []].
    destruct Hreq as (_ & Hclaims & Hforce).
    rewrite getStoredClaimsChallenge_outcome.
    unfold stored_challenge, challenge_key in Hclaims, Hforce.
    split.
    + intros c [= Hc] Hne. rewrite Hc in Hclaims, Hforce. simpl in *.
      apply truthy_true in Hne. rewrite Hne in Hclaims, Hforce. auto.
    + intros [= Hc]. rewrite Hc in Hclaims, Hforce. auto.
Qed.


Ltac walk_paths :=
  destruct init_records_no_acquisition as (Hinit_silent & Hinit_popup & _);
  destruct (acquireToken_path wanted resource s)
    as [e0 Hinit Hev Hout Hst
       | request0 result0 Hinit Hreq Hres Hev Hout Hst
       | request0 e0 result0 Hinit Hreq Hir Hev Hout Hst];
  rewrite ?Hev, ?Hout, ?silent_calls_app, ?popup_calls_app,
    ?Hinit_silent, ?Hinit_popup;
  simpl.

(** C4.  When the silent acquisition fails with an interaction-required
    error that carries a claims string [e] (MSAL leaves the property
    empty when there is none), exactly one interactive acquisition
    follows; its request has [claims = e], whatever the request held
    before, and the session storage seen at that call holds [e] for the
    resource. *)
Theorem acquireToken_interactive_request_carries_error_claims
    (request : PopupRequest) (storage : gmap string string)
    (code e : string) :
  let run := acquireToken wanted resource s in
  In (request, storage, Throw (InteractionRequiredAuthError code e))
     (silent_calls (events run)) ->
  e <> EmptyString ->
  exists request' storage' result',
    popup_calls (events run) = [(request', storage', result')]
    /\ claims request' = Some e
    /\ storage' !! (STORAGE_KEY_PREFIX +:+ resource) = Some e.
Proof.
  intros run. subst run. walk_paths.
  - intros [].
  - intros [[= <- <- ->] | []]. discriminate Hres.
  - intros [[= <- <- ->] | []] Hne. apply truthy_true in Hne.
    eexists _, _, _. split; [reflexivity|].
    unfold interactive_request, interactive_storage, challenge_key. simpl.
    rewrite Hne. simpl. split; [reflexivity | apply lookup_insert_eq].
Qed.

(** C5.  After a run of [acquireToken] that returns a result, the store
    holds nothing for the resource if the request included a stored
    (non-empty) challenge, and also, whatever was stored, if the result
    came from the interactive acquisition. *)
Theorem acquireToken_success_clears_challenge (result : AuthenticationResult) :
  let run := acquireToken wanted resource s in
  outcome run = Normal result ->
  (exists c, outcome (getStoredClaimsChallenge resource s) = Normal (Some c)
             /\ c <> EmptyString)
  \/ popup_calls (events run) <> [] ->
  outcome (getStoredClaimsChallenge resource (final run)) = Normal None.
Proof.
  intros run. subst run. rewrite !getStoredClaimsChallenge_outcome.
  walk_paths; rewrite Hst.
  - discriminate.
  - intros -> [(c & [= Hc] & Hne) | Hpopup]; [|congruence].
    unfold stored_challenge, challenge_key. rewrite Hc. simpl.
    apply truthy_true in Hne. rewrite Hne. f_equal. apply lookup_delete_eq.
  - intros -> _. f_equal. apply lookup_delete_eq.
Qed.

(** C6.  Any error thrown by a call made during [acquireToken] that is
    not an interaction-required error is the error [acquireToken] throws.
    In particular, when the silent acquisition fails with such an error,
    it is propagated unchanged, no interactive acquisition is attempted
    and the silent acquisition is not called again. *)
Theorem acquireToken_propagates_other_errors :
  let run := acquireToken wanted resource s in
  (forall ev e,
      In ev (events run) -> event_error ev = Some e ->
      instanceof_InteractionRequiredAuthError e = false ->
      outcome run = Throw e)
  /\ (forall request storage e,
        In (request, storage, Throw e) (silent_calls (events run)) ->
        instanceof_InteractionRequiredAuthError e = false ->
        outcome run = Throw e
        /\ popup_calls (events run) = []
        /\ length (silent_calls (events run)) = 1).
Proof.
  intros run. subst run.
  assert (Hcreate : forall ev e,
             In ev (events (getMsalInstance s)) -> event_error ev = Some e ->
             outcome (getMsalInstance s) = Throw e).
  { destruct (getMsalInstance_run s) as (_ & [Hev | (c & Hev & Hc)] & _);
      rewrite Hev; intros ev e.
    - intros [].
    - intros [<- | []]. destruct c; simpl; [discriminate|].
      intros [= <-]. apply Hc. reflexivity. }
  walk_paths.
  - split; [|intros ? ? ? []].
    intros ev e Hin Herr _. pose proof (Hcreate ev e Hin Herr). congruence.
  - split.
    + intros ev e Hin Herr Hother. apply in_app_or in Hin as [Hin | [<- | []]].
      * rewrite (Hcreate ev e Hin Herr) in Hinit. discriminate Hinit.
      * destruct result0; [discriminate Herr|]. simpl in Herr. congruence.
    + intros request storage e [[= <- <- ->] | []] _. auto.
  - split.
    + intros ev e Hin Herr Hother.
      apply in_app_or in Hin as [Hin | [<- | [<- | []]]].
      * rewrite (Hcreate ev e Hin Herr) in Hinit. discriminate Hinit.
      * simpl in Herr. congruence.
      * destruct result0; [discriminate Herr|]. simpl in Herr. congruence.
    + intros request storage e [[= <- <- ->] | []] Hother. congruence.
Qed.

(** C10.  When the entry stored for the resource is the empty string,
    the request of the silent acquisition has neither [claims] nor
    [forceRefresh] set; after a successful silent acquisition the entry
    is still there; and no request made during the run carries the empty
    string as its claims. *)
Theorem acquireToken_ignores_empty_challenge :
  let run := acquireToken wanted resource s in
  outcome (getStoredClaimsChallenge resource s) = Normal (Some EmptyString) ->
  (forall request storage result,
      In (request, storage, result) (silent_calls (events run)) ->
      claims request = None /\ forceRefresh request = None)
  /\ (forall request storage result,
        In (request, storage, Normal result) (silent_calls (events run)) ->
        outcome run = Normal result
        /\ popup_calls (events run) = []
        /\ outcome (getStoredClaimsChallenge resource (final run))
           = Normal (Some EmptyString))
  /\ (forall ev request,
        In ev (events run) -> event_request ev = Some request ->
        claims request <> Some EmptyString).
Proof.
  intros run. subst run. rewrite !getStoredClaimsChallenge_outcome.
  intros [= Hempty].
  assert (Hcreate : forall ev request,
             In ev (events (getMsalInstance s)) ->
             event_request ev <> Some request).
  { destruct (getMsalInstance_run s) as (_ & [Hev | (c & Hev & _)] & _);
      rewrite Hev; intros ev request'.
    - intros [].
    - intros [<- | []]. discriminate. }
  assert (Hbuilt : forall request,
             request_built wanted resource s request ->
             claims request = None /\ forceRefresh request = None).
  { intros request (_ & Hclaims & Hforce).
    unfold stored_challenge, challenge_key in Hclaims, Hforce.
    rewrite Hempty in Hclaims, Hforce. auto. }
  walk_paths; rewrite ?Hst.
  - split; [intros ? ? ? []|]. split; [intros ? ? ? []|].
    intros ev request Hin Hreq. destruct (Hcreate ev request Hin Hreq).
  - destruct (Hbuilt request0 Hreq) as (Hclaims & Hforce).
    split; [|split].
    + intros request storage result [[= <- <- <-] | []]. auto.
    + intros request storage result [[= <- <- ->] | []].
      simpl. unfold stored_challenge, challenge_key. rewrite Hempty. simpl.
      rewrite Hempty. auto.
    + intros ev request Hin Hrequest.
      apply in_app_or in Hin as [Hin | [<- | []]].
      * destruct (Hcreate ev request Hin Hrequest).
      * simpl in Hrequest. injection Hrequest as <-. congruence.
  - destruct (Hbuilt request0 Hreq) as (Hclaims & Hforce).
    split; [|split].
    + intros request storage result [[= <- <- <-] | []]. auto.
    + intros request storage result [[=] | []].
    + intros ev request Hin Hrequest.
      apply in_app_or in Hin as [Hin | [<- | [<- | []]]].
      * destruct (Hcreate ev request Hin Hrequest).
      * simpl in Hrequest. injection Hrequest as <-. congruence.
      * simpl in Hrequest. injection Hrequest as <-.
        unfold interactive_request.
        destruct (truthy (error_claims e0)) eqn:Htruthy; simpl.
        -- intros [= Hc]. rewrite Hc in Htruthy. discriminate Htruthy.
        -- congruence.
Qed.

End AcquireToken.

Section ChallengeStore.
Context {W Pca J : Type} `{!Host W Pca J}.

Lemma storage_key_injective (r r' : string) :
  STORAGE_KEY_PREFIX +:+ r = STORAGE_KEY_PREFIX +:+ r' -> r = r'.
Proof. apply (inj (String.append STORAGE_KEY_PREFIX)). Qed.

(** C9.  Reading [r] after storing [c] for [r] gives [c]; reading [r]
    after clearing [r] gives nothing; storing or clearing [r] leaves what
    is read for another resource [r'] unchanged. *)
Theorem challenge_store_get_put_clear (r r' c : string) (s : State W Pca) :
  outcome (getStoredClaimsChallenge r (final (storeClaimsChallenge r c s)))
  = Normal (Some c)
  /\ outcome (getStoredClaimsChallenge r (final (clearClaimsChallenge r s)))
     = Normal None
  /\ (r <> r' ->
      outcome (getStoredClaimsChallenge r' (final (storeClaimsChallenge r c s)))
      = outcome (getStoredClaimsChallenge r' s)
      /\ outcome (getStoredClaimsChallenge r' (final (clearClaimsChallenge r s)))
         = outcome (getStoredClaimsChallenge r' s)).
Proof.
  unfold getStoredClaimsChallenge, storeClaimsChallenge, clearClaimsChallenge,
    sessionStorage_getItem, sessionStorage_setItem, sessionStorage_removeItem.
  simpl. split; [|split].
  - f_equal. apply lookup_insert_eq.
  - f_equal. apply lookup_delete_eq.
  - intros Hne.
    assert (Hkey : STORAGE_KEY_PREFIX +:+ r <> STORAGE_KEY_PREFIX +:+ r').
    { intros Heq. apply Hne, storage_key_injective, Heq. }
    split; f_equal.
    + apply lookup_insert_ne, Hkey.
    + apply lookup_delete_ne, Hkey.
Qed.

End ChallengeStore.

Section CallGraph.
Context {W Pca J : Type} `{!Host W Pca J}.

Lemma handleClaimsChallengeFromResponse_run (response : Response)
    (resource : string) (s : State W Pca) :
  exists found,
    handleClaimsChallengeFromResponse response resource s
    = {| final := match found with
                  | Some c => if truthy c then challenge_stored resource c s else s
                  | None => s
                  end;
         events := [];
         outcome := Normal found |}
    /\ (found <> None -> status response = 401%N)
    /\ (forall c, yields_claims response c -> found = Some c).
Proof.
  unfold handleClaimsChallengeFromResponse, yields_claims.
  destruct (N.eqb_spec (status response) 401) as [Hstatus|Hstatus]; simpl.
  2:{ exists None. split; [reflexivity|]. split; [congruence|].
      intros c (Hs & _). contradiction. }
  destruct (headers_get response "WWW-Authenticate") as [header|] eqn:Hheader.
  2:{ exists None. split; [reflexivity|]. split; [congruence|].
      intros c (_ & h & Hh & _). discriminate Hh. }
  destruct (truthy header) eqn:Htruthy; simpl.
  2:{ exists None. split; [reflexivity|]. split; [congruence|].
      intros c (_ & h & [= <-] & Hparse). destruct header; [|discriminate].
      vm_compute in Hparse. discriminate Hparse. }
  destruct (parse_never_throws header) as (found & Hparse).
  exists found. unfold bind, lift, ret, storeClaimsChallenge,
    sessionStorage_setItem, challenge_stored. rewrite Hparse.
  split; [|split; [auto|]].
  - destruct found as [c|]; simpl; [|reflexivity].
    destruct (truthy c); reflexivity.
  - intros c (_ & h & [= <-] & Hparse'). congruence.
Qed.

Lemma acquireToken_no_fetch (wanted : list string) (resource : string)
    (s : State W Pca) :
  fetch_calls (events (acquireToken wanted resource s)) = [].
Proof.
  destruct (init_records_no_acquisition s) as (_ & _ & Hinit).
  destruct (acquireToken_path wanted resource s)
    as [e _ Hev _ _ | request result _ _ _ Hev _ _
       | request e result _ _ _ Hev _ _];
    rewrite Hev, ?fetch_calls_app, ?Hinit; reflexivity.
Qed.

Lemma fetch_calls_cons (url authorization : string)
    (c : Completion Response) (evs : list (Event Pca)) :
  fetch_calls (Fetch url authorization c :: evs)
  = (url, authorization, c) :: fetch_calls evs.
Proof. reflexivity. Qed.

Lemma do_fetch_run (url authorization : string) (s : State W Pca)
    (w : W) (c : Completion Response) :
  fetch url authorization (world s) = (w, c) ->
  do_fetch url authorization s
  = {| final := with_world s w; events := [Fetch url authorization c];
       outcome := c |}.
Proof. intros Hfetch. unfold do_fetch, host_call. rewrite Hfetch. reflexivity. Qed.


Lemma bind_events {A B} (m : M A) (k : A -> M B) (s : State W Pca) :
  events (bind m k s)
  = events (m s)
    ++ match outcome (m s) with
       | Normal a => events (k a (final (m s)))
       | Throw _ => []
       end.
Proof.
  unfold bind. destruct (m s) as [s1 evs1 [a|e]]; simpl.
  - apply prefixed_events.
  - symmetry. apply app_nil_r.
Qed.

Lemma bind_outcome {A B} (m : M A) (k : A -> M B) (s : State W Pca) :
  outcome (bind m k s)
  = match outcome (m s) with
    | Normal a => outcome (k a (final (m s)))
    | Throw e => Throw e
    end.
Proof.
  unfold bind. destruct (m s) as [s1 evs1 [a|e]]; simpl.
  - apply prefixed_outcome.
  - reflexivity.
Qed.

(** The step between the first response and the status check: either
    nothing is fetched and the first response stands, or the challenge
    is stored, a token is acquired again and, if that succeeds, the
    request is fetched once more. *)
Lemma retry_step (url : string) (wanted : list string) (r1 : Response)
    (s : State W Pca) :
  let step :=
    (if (status r1 =? 401)%N then
       bind (handleClaimsChallengeFromResponse r1 RESOURCE)
         (fun claims =>
            if truthy_opt claims then
              bind (acquireToken wanted RESOURCE)
                (fun tokenResult =>
                   do_fetch url ("Bearer " +:+ accessToken tokenResult))
            else ret r1)
     else ret r1) s in
  (events step = [] /\ outcome step = Normal r1
   /\ forall c, yields_claims r1 c -> c = EmptyString)
  \/ exists c,
       (forall c', yields_claims r1 c' -> c' = c)
       /\ let second :=
            acquireToken wanted RESOURCE (challenge_stored RESOURCE c s) in
          match outcome second with
          | Throw e => events step = events second /\ outcome step = Throw e
          | Normal tokenResult =>
              exists retried,
                events step
                = events second
                  ++ [Fetch url ("Bearer " +:+ accessToken tokenResult) retried]
                /\ outcome step = retried
          end.
Proof.
  intros step. subst step.
  destruct (handleClaimsChallengeFromResponse_run r1 RESOURCE s)
    as (found & Hrun & H401 & Hyield).
  destruct (truthy_opt found) eqn:Hfound.
  - apply truthy_opt_true in Hfound as (c & -> & Hne).
    rewrite (H401 ltac:(discriminate)). simpl.
    apply truthy_true in Hne. rewrite Hne in Hrun.
    right. exists c. split.
    { intros c' Hc'. specialize (Hyield c' Hc'). congruence. }
    erewrite bind_Normal by exact Hrun. simpl. rewrite Hne.
    destruct (acquireToken wanted RESOURCE (challenge_stored RESOURCE c s))
      as [s4 evs4 [t2|e2]] eqn:Hacq2; simpl.
    + erewrite bind_Normal by exact Hacq2.
      unfold do_fetch, host_call.
      destruct (fetch url ("Bearer " +:+ accessToken t2) (world s4))
        as [w5 retried].
      exists retried. simpl. auto.
    + erewrite bind_Throw by exact Hacq2. simpl. auto.
  - left.
    assert (Hnone : forall c, yields_claims r1 c -> c = EmptyString).
    { intros c Hc. rewrite (Hyield c Hc) in Hfound. simpl in Hfound.
      destruct c; [reflexivity | discriminate Hfound]. }
    destruct (status r1 =? 401)%N; [|simpl; auto].
    erewrite bind_Normal by exact Hrun.
    rewrite prefixed_events, prefixed_outcome, Hfound. simpl. auto.
Qed.

(** What follows the (possibly retried) response: the status check, the
    body, the JSON parser.  Nothing is called from here on. *)
Lemma response_handling_run (response : Response) (s : State W Pca) :
  let run :=
    (if negb (response_ok response) then
       bind (lift (response_text response))
         (fun errorBody =>
            throw (Error "Error" (graph_error_message response errorBody)))
     else
       bind (lift (response_text response))
         (fun body => lift (JSON_parse body))) s in
  events run = []
  /\ (response_ok response = false ->
      forall body, response_text response = Normal body ->
      outcome run = Throw (Error "Error" (graph_error_message response body)))
  /\ (forall e, response_text response = Throw e -> outcome run = Throw e).
Proof.
  unfold bind, lift, throw.
  destruct (response_ok response); simpl;
    destruct (response_text response) as [body|e]; simpl.
  - destruct (JSON_parse body); simpl;
      (split; [reflexivity | split; discriminate]).
  - split; [reflexivity|]. split; [discriminate|]. intros e' [= <-]. reflexivity.
  - split; [reflexivity|]. split; [|discriminate].
    intros _ b [= <-]. reflexivity.
  - split; [reflexivity|]. split; [intros _ b [=]|].
    intros e' [= <-]. reflexivity.
Qed.

(** C2 (amended).  No run of [callGraphWithClaimsRetry] issues more than
    two fetches.  When the first response is a 401 whose challenge header
    yields a non-empty claims value [c], the challenge is stored and the
    token is acquired again, from the state so obtained.  If that second
    acquisition fails, its error is the outcome and the first fetch was
    the only one.  If it succeeds, exactly one more fetch follows it, to
    the same URL and with the new token, and the call ends with what that
    fetch gives: when the second response is not a success and its body
    can be read, the outcome is an error whose message carries the status
    code and the body text; when the body of the second response cannot
    be read, the error of reading it is the outcome; and when the second
    fetch is itself rejected, its error is the outcome. *)
Theorem callGraphWithClaimsRetry_retries_at_most_once
    (endpoint : string) (wanted : list string) (s : State W Pca) :
  let run := callGraphWithClaimsRetry endpoint wanted s in
  let first := acquireToken wanted RESOURCE s in
  length (fetch_calls (events run)) <= 2
  /\ forall url authorization response rest c,
       fetch_calls (events run)
       = (url, authorization, Normal response) :: rest ->
       yields_claims response c ->
       c <> EmptyString ->
       exists (w : W) (stored : State W Pca),
         stored = challenge_stored RESOURCE c (with_world (final first) w)
         /\ sessionStorage stored !! (STORAGE_KEY_PREFIX +:+ RESOURCE) = Some c
         /\ let second := acquireToken wanted RESOURCE stored in
            match outcome second with
            | Throw e =>
                events run
                = events first
                  ++ Fetch url authorization (Normal response) :: events second
                /\ rest = []
                /\ outcome run = Throw e
            | Normal tokenResult =>
                exists retried,
                  events run
                  = events first
                    ++ Fetch url authorization (Normal response)
                    :: events second
                    ++ [Fetch url ("Bearer " +:+ accessToken tokenResult)
                          retried]
                  /\ rest
                     = [(url, "Bearer " +:+ accessToken tokenResult, retried)]
                  /\ (forall response2 body,
                        retried = Normal response2 ->
                        response_ok response2 = false ->
                        response_text response2 = Normal body ->
                        outcome run
                        = Throw (Error "Error"
                                   (graph_error_message response2 body)))
                  /\ (forall response2 e,
                        retried = Normal response2 ->
                        response_text response2 = Throw e ->
                        outcome run = Throw e)
                  /\ (forall e, retried = Throw e -> outcome run = Throw e)
            end.
Proof.
  intros run first. subst run first. unfold callGraphWithClaimsRetry.
  pose proof (acquireToken_no_fetch wanted RESOURCE s) as Hnofetch1.
  destruct (acquireToken wanted RESOURCE s) as [s1 evs1 [t1|e1]] eqn:Hacq1;
    simpl in Hnofetch1.
  2:{ erewrite bind_Throw by eassumption. simpl. rewrite Hnofetch1. simpl.
      split; [lia | discriminate]. }
  erewrite bind_Normal by eassumption.
  destruct (fetch (GRAPH_BASE +:+ endpoint) ("Bearer " +:+ accessToken t1)
              (world s1)) as [w2 [r1|e]] eqn:Hfetch1.
  2:{ erewrite bind_Throw by (apply do_fetch_run; eassumption).
      rewrite !prefixed_events, !prefixed_outcome. simpl.
      rewrite fetch_calls_app, Hnofetch1. simpl.
      split; [lia | discriminate]. }
  erewrite bind_Normal by (apply do_fetch_run; eassumption).
  rewrite !prefixed_events, !prefixed_outcome. simpl.
  match goal with
  | |- context [bind _ ?k (with_world s1 w2)] => set (tail := k)
  end.
  assert (Htail : forall r2 s',
             events (tail r2 s') = []
             /\ (response_ok r2 = false ->
                 forall body, response_text r2 = Normal body ->
                 outcome (tail r2 s')
                 = Throw (Error "Error" (graph_error_message r2 body)))
             /\ (forall e, response_text r2 = Throw e ->
                           outcome (tail r2 s') = Throw e)).
  { intros r2 s'. exact (response_handling_run r2 s'). }
  clearbody tail.
  rewrite bind_events, bind_outcome.
  pose proof (retry_step (GRAPH_BASE +:+ endpoint) wanted r1 (with_world s1 w2))
    as Hstep.
  cbv zeta in Hstep.
  match type of Hstep with
  | context [events ?step] => set (run_step := step) in *
  end.
  clearbody run_step.
  pose proof (acquireToken_no_fetch wanted RESOURCE) as Hnofetch.
  destruct Hstep as [(Hevents & Hout & Hnone) | (c & Hsame & Hretry)].
  - rewrite Hevents, Hout, (proj1 (Htail _ _)), fetch_calls_app, Hnofetch1.
    simpl. split; [lia|].
    intros url authorization response rest c [= <- <- <- <-] Hyields Hne.
    destruct (Hne (Hnone c Hyields)).
  - set (stored := challenge_stored RESOURCE c (with_world s1 w2)) in *.
    assert (Hstored : sessionStorage stored
                      !! (STORAGE_KEY_PREFIX +:+ RESOURCE) = Some c).
    { apply lookup_insert_eq. }
    specialize (Hnofetch stored).
    destruct (outcome (acquireToken wanted RESOURCE stored))
      as [t2|e2] eqn:Hacq2.
    + destruct Hretry as (retried & Hevents & Hout).
      assert (Hnomore :
                match retried with
                | Normal a => events (tail a (final run_step))
                | Throw _ => []
                end = []).
      { destruct retried as [r2|e]; [apply (proj1 (Htail _ _))|reflexivity]. }
      rewrite Hevents, Hout, Hnomore, app_nil_r, fetch_calls_app, Hnofetch1,
        fetch_calls_cons, fetch_calls_app, Hnofetch.
      simpl. split; [lia|].
      intros url authorization response rest c' [= <- <- <- <-] Hyields Hne.
      rewrite (Hsame c' Hyields) in *.
      exists w2, stored. split; [reflexivity|].
      split; [exact Hstored|]. rewrite Hacq2.
      exists retried. split; [reflexivity|]. split; [reflexivity|].
      split; [|split].
      * intros r2 body -> Hok Htext.
        exact (proj1 (proj2 (Htail r2 _)) Hok body Htext).
      * intros r2 e -> Htext.
        exact (proj2 (proj2 (Htail r2 _)) e Htext).
      * intros e ->. reflexivity.
    + destruct Hretry as (Hevents & Hout).
      rewrite Hevents, Hout, app_nil_r, fetch_calls_app, Hnofetch1,
        fetch_calls_cons, Hnofetch.
      simpl. split; [lia|].
      intros url authorization response rest c' [= <- <- <- <-] Hyields Hne.
      rewrite (Hsame c' Hyields) in *.
      exists w2, stored. split; [reflexivity|].
      split; [exact Hstored|]. rewrite Hacq2. auto.
Qed.

End CallGraph.

Section SingleFlight.
Context {W Pca J : Type} `{!Host W Pca J}.

Lemma created_clients_app (a b : list (Event Pca)) :
  created_clients (a ++ b) = created_clients a ++ created_clients b.
Proof. apply omap_app. Qed.

(** A call that has passed its first piece never calls the factory
    again. *)
Lemma step_call_entered (c : Call Pca) (s : State W Pca) :
  entered c ->
  entered (step_call c s).1.1 /\ created_clients (step_call c s).2 = [].
Proof.
  destruct c as [|awaited|result]; simpl; [intros []| |auto].
  intros _. split; [exact I|].
  unfold getMsalInstance_resume, bind, lift, write_msalInstance, ret.
  destruct awaited; reflexivity.
Qed.

Lemma step_entered (i : nat) (sys : System W Pca) :
  Forall entered (calls sys) ->
  Forall entered (calls (step i sys))
  /\ created_clients (history (step i sys)) = created_clients (history sys).
Proof.
  intros Hall. unfold step.
  destruct (calls sys !! i) as [c|] eqn:Hc; [|auto].
  assert (Hentered : entered c).
  { exact (proj1 (Forall_lookup _ _) Hall i c Hc). }
  destruct (step_call_entered c (shared sys) Hentered) as (Hc' & Hnone).
  destruct (step_call c (shared sys)) as [[c' s'] evs]. simpl in *.
  split.
  - apply Forall_insert; assumption.
  - rewrite created_clients_app, Hnone. apply app_nil_r.
Qed.

Lemma run_schedule_entered (schedule : list nat) (sys : System W Pca) :
  Forall entered (calls sys) ->
  created_clients (history (run_schedule schedule sys))
  = created_clients (history sys).
Proof.
  unfold run_schedule. revert sys.
  induction schedule as [|i schedule IH]; intros sys Hall; [reflexivity|].
  simpl. destruct (step_entered i sys Hall) as (Hall' & Hsame).
  rewrite (IH (step i sys) Hall'). exact Hsame.
Qed.

Lemma step_call_enter_uncached (s : State W Pca) (w : W)
    (c : Completion Pca) :
  msalInstance s = None ->
  createNestablePublicClientApplication msalConfig (world s) = (w, c) ->
  step_call NotCalled s
  = (Suspended c, with_world s w, [CreateClient msalConfig c]).
Proof.
  intros Hnone Hcreate. unfold step_call, getMsalInstance_enter, bind,
    read_msalInstance, ret.
  rewrite Hnone. simpl. rewrite Hcreate. reflexivity.
Qed.

(** C3.  When the variable holds no instance and the second call of
    [getMsalInstance] runs its first piece before the first call has
    resumed from its [await], the client factory is called twice, however
    the two calls are scheduled afterwards. *)
Theorem getMsalInstance_overlapping_calls_construct_two_clients
    (s : State W Pca) (rest : list nat) :
  msalInstance s = None ->
  length (created_clients
            (history (run_schedule (0 :: 1 :: rest) (two_calls s)))) = 2.
Proof.
  intros Hnone.
  destruct (createNestablePublicClientApplication msalConfig (world s))
    as [w1 c1] eqn:Hcreate1.
  destruct (createNestablePublicClientApplication msalConfig w1)
    as [w2 c2] eqn:Hcreate2.
  change (run_schedule (0 :: 1 :: rest) (two_calls s))
    with (run_schedule rest (step 1 (step 0 (two_calls s)))).
  assert (Hfirst : step 0 (two_calls s)
                   = {| calls := [Suspended c1; NotCalled];
                        shared := with_world s w1;
                        history := [CreateClient msalConfig c1] |}).
  { unfold step, two_calls. cbn -[step_call].
    rewrite (step_call_enter_uncached s w1 c1 Hnone Hcreate1). reflexivity. }
  assert (Hsecond : step 1 (step 0 (two_calls s))
                    = {| calls := [Suspended c1; Suspended c2];
                         shared := with_world (with_world s w1) w2;
                         history := [CreateClient msalConfig c1;
                                     CreateClient msalConfig c2] |}).
  { rewrite Hfirst. unfold step. cbn -[step_call].
    rewrite (step_call_enter_uncached (with_world s w1) w2 c2 Hnone Hcreate2).
    reflexivity. }
  rewrite Hsecond, run_schedule_entered; [reflexivity|].
  simpl. repeat constructor.
Qed.

(** When the calls do not overlap, the guard works: the second call
    finds the instance the first one stored. *)
Lemma getMsalInstance_sequential_calls_share_the_client
    (s : State W Pca) (w : W) (pca : Pca) :
  msalInstance s = None ->
  createNestablePublicClientApplication msalConfig (world s) = (w, Normal pca) ->
  let sys := run_schedule [0; 0; 1; 1] (two_calls s) in
  created_clients (history sys) = [Normal pca]
  /\ calls sys = [Settled (Normal pca); Settled (Normal pca)].
Proof.
  intros Hnone Hcreate. unfold run_schedule, step. simpl.
  unfold getMsalInstance_enter, bind, read_msalInstance, ret. rewrite Hnone.
  simpl. rewrite Hcreate. simpl. auto.
Qed.

End SingleFlight.

(* ================================================================== *)
(** ** More on the parser and the store                                *)
(* ================================================================== *)

(** X1 (parseClaimsChallengeFromHeader).  Whatever the parser returns
    comes from the leftmost match of its regular expression in the
    header, that is, from the leftmost place where the header reads
    [claims] in any letter case, the equals sign and a double quote,
    then one or more characters other than the double quote, then a
    double quote (whatever precedes that place): the result is the
    base64 decoding of the characters between those quotes, or these
    characters themselves when atob rejects them.  No later match is
    ever used. *)
Theorem parse_result_comes_from_first_pair (h r : string) :
  parseClaimsChallengeFromHeader h = Normal (Some r) ->
  exists v,
    first_claims_pair h v
    /\ (Platform.atob v = Normal r
        \/ (is_Normal (Platform.atob v) = false /\ r = v)).
Proof.
  unfold parseClaimsChallengeFromHeader.
  destruct (Platform.claimsRegex_exec h) as [v|] eqn:Hexec; [|discriminate].
  apply claimsRegex_exec_Some in Hexec.
  rewrite (first_claims_pair_truthy h v Hexec). simpl.
  destruct (Platform.atob v) as [decoded|e] eqn:Hatob; simpl;
    intros [= <-]; exists v; (split; [exact Hexec|]).
  - left. exact Hatob.
  - right. rewrite Hatob. split; reflexivity.
Qed.


Section Store.
Context {W Pca : Type}.

Lemma state_eq (s1 s2 : State W Pca) :
  msalInstance s1 = msalInstance s2 ->
  sessionStorage s1 = sessionStorage s2 ->
  world s1 = world s2 ->
  s1 = s2.
Proof. destruct s1, s2. simpl. intros -> -> ->. reflexivity. Qed.

(** X2 (storeClaimsChallenge, clearClaimsChallenge).  How the writes of
    the store compose: a second store for a resource overwrites the
    first, a store followed by a clear is a clear, clearing twice is
    clearing once, clearing a resource that has no entry changes nothing,
    and storing the value that is already stored changes nothing. *)
Theorem challenge_store_composition (r c1 c2 : string) (s : State W Pca) :
  final (storeClaimsChallenge r c2 (final (storeClaimsChallenge r c1 s)))
  = final (storeClaimsChallenge r c2 s)
  /\ final (clearClaimsChallenge r (final (storeClaimsChallenge r c1 s)))
     = final (clearClaimsChallenge r s)
  /\ final (clearClaimsChallenge r (final (clearClaimsChallenge r s)))
     = final (clearClaimsChallenge r s)
  /\ (outcome (getStoredClaimsChallenge r s) = Normal None ->
      final (clearClaimsChallenge r s) = s)
  /\ (outcome (getStoredClaimsChallenge r s) = Normal (Some c1) ->
      final (storeClaimsChallenge r c1 s) = s).
Proof.
  unfold storeClaimsChallenge, clearClaimsChallenge, getStoredClaimsChallenge,
    sessionStorage_setItem, sessionStorage_removeItem, sessionStorage_getItem.
  simpl. repeat split.
  - apply state_eq; simpl; [reflexivity | apply insert_insert_eq | reflexivity].
  - apply state_eq; simpl; [reflexivity | apply delete_insert_eq | reflexivity].
  - apply state_eq; simpl; [reflexivity | apply delete_delete_eq | reflexivity].
  - intros [= Hnone].
    apply state_eq; simpl; [reflexivity | apply delete_id, Hnone | reflexivity].
  - intros [= Hsome].
    apply state_eq; simpl; [reflexivity | apply insert_id, Hsome | reflexivity].
Qed.

End Store.

Section HandleChallenge.
Context {W Pca : Type}.

Lemma handleClaimsChallengeFromResponse_found
    (response : Response) (resource c : string) (s : State W Pca) :
  outcome (handleClaimsChallengeFromResponse response resource s)
  = Normal (Some c)
  -> yields_claims response c.
Proof.
  unfold handleClaimsChallengeFromResponse, yields_claims.
  destruct (N.eqb_spec (status response) 401) as [Hstatus|Hstatus]; simpl;
    [|discriminate].
  destruct (headers_get response "WWW-Authenticate") as [header|] eqn:Hheader;
    [|discriminate].
  destruct (truthy header) eqn:Htruthy; simpl; [|discriminate].
  destruct (parse_never_throws header) as (found & Hparse).
  unfold bind, lift, ret, storeClaimsChallenge, sessionStorage_setItem.
  rewrite Hparse. destruct (truthy_opt found); simpl;
    intros [= ->]; eauto.
Qed.

(** X3 (handleClaimsChallengeFromResponse).  The function returns the
    claims value c exactly when the response has status 401 and its
    WWW-Authenticate header parses to c. *)
Theorem handleClaimsChallengeFromResponse_returns_iff_yields
    (response : Response) (resource c : string) (s : State W Pca) :
  outcome (handleClaimsChallengeFromResponse response resource s)
  = Normal (Some c)
  <-> yields_claims response c.
Proof.
  split; [apply handleClaimsChallengeFromResponse_found|].
  intros Hyields.
  destruct (handleClaimsChallengeFromResponse_run response resource s)
    as (found & Hrun & _ & Hfound).
  rewrite Hrun. simpl. rewrite (Hfound c Hyields). reflexivity.
Qed.

(** X4 (handleClaimsChallengeFromResponse).  A non-empty value the
    function returns is the one [getStoredClaimsChallenge] gives
    afterwards; when it returns nothing or the empty string the state is
    unchanged; the entries of other resources, the client variable and
    the host are never touched, no call is recorded, and it never
    throws. *)
Theorem handleClaimsChallengeFromResponse_stores_what_it_returns
    (response : Response) (resource : string) (s : State W Pca) :
  let run := handleClaimsChallengeFromResponse response resource s in
  (forall c,
      outcome run = Normal (Some c) -> c <> EmptyString ->
      outcome (getStoredClaimsChallenge resource (final run))
      = Normal (Some c))
  /\ (outcome run = Normal None \/ outcome run = Normal (Some EmptyString) ->
      final run = s)
  /\ (forall r', r' <> resource ->
        outcome (getStoredClaimsChallenge r' (final run))
        = outcome (getStoredClaimsChallenge r' s))
  /\ msalInstance (final run) = msalInstance s
  /\ world (final run) = world s
  /\ events run = []
  /\ is_Normal (outcome run) = true.
Proof.
  intros run. subst run.
  destruct (handleClaimsChallengeFromResponse_run response resource s)
    as (found & Hrun & _ & _).
  rewrite Hrun. simpl.
  unfold getStoredClaimsChallenge, sessionStorage_getItem. simpl.
  destruct found as [[|ch c]|]; simpl.
  - repeat split; auto. intros c [= <-] Hne. congruence.
  - repeat split; auto.
    + intros c' [= <-] _. f_equal. apply lookup_insert_eq.
    + intros [[=]|[=]].
    + intros r' Hne. f_equal. apply lookup_insert_ne.
      intros Heq. apply Hne. symmetry.
      exact (storage_key_injective _ _ Heq).
  - repeat split; auto. intros c [=].
Qed.

End HandleChallenge.

(* ================================================================== *)
(** ** More on acquireToken                                            *)
(* ================================================================== *)

Ltac run_service :=
  unfold getStoredClaimsChallenge,
    clearClaimsChallenge, storeClaimsChallenge, acquireTokenSilent,
    acquireTokenPopup, setActiveAccount, sessionStorage_getItem,
    sessionStorage_setItem, sessionStorage_removeItem, host_call, try_catch,
    bind, prefixed, ret, throw, lift, with_world.

Section AcquireTokenFrame.
Context {W Pca J : Type} `{!Host W Pca J}.
Variables (wanted : list string) (resource : string) (s : State W Pca).

(** What a run keeps of the client variable, and which account its
    request names. *)
Lemma acquireToken_frame :
  let init := getMsalInstance s in
  let run := acquireToken wanted resource s in
  msalInstance (final run) = msalInstance (final init)
  /\ forall request storage result,
       In (request, storage, result) (silent_calls (events run)) ->
       outcome (getActiveAccount (final init)) = Normal (account request).
Proof.
  intros init run. subst init run.
  destruct (init_records_no_acquisition s) as (Hinit_silent & _ & _).
  unfold acquireToken.
  destruct (getMsalInstance s) as [s0 evs0 [pca|e]] eqn:Hinit; simpl in *.
  2:{ erewrite bind_Throw by eassumption. simpl. rewrite Hinit_silent.
      split; [reflexivity | intros ? ? ? []]. }
  erewrite bind_Normal by eassumption.
  destruct (getActiveAccount_run s0) as (w1 & a & Haccount).
  erewrite bind_Normal by eassumption. rewrite Haccount.
  clear Haccount. destruct s0 as [inst0 storage0 w0].
  run_service. unfold buildGraphRequest. destruct a as [active|]; simpl.
  all: destruct (storage0 !! (STORAGE_KEY_PREFIX +:+ resource))
         as [[|ch c]|] eqn:Hstored; simpl.
  all: match goal with
       | |- context [pca_acquireTokenSilent ?p ?r ?w] =>
           destruct (pca_acquireTokenSilent p r w) as [w2 [result|e]]
       end; simpl.
  all: try (destruct (result_account result); simpl;
            rewrite silent_calls_app, Hinit_silent; simpl;
            (split; [reflexivity|]);
            intros ? ? ? [[= <- _ _]|[]]; reflexivity).
  all: destruct e as [code [|ch' ec]|name msg]; simpl.
  all: try (rewrite silent_calls_app, Hinit_silent; simpl;
            (split; [reflexivity|]);
            intros ? ? ? [[= <- _ _]|[]]; reflexivity).
  all: match goal with
       | |- context [pca_acquireTokenPopup ?p ?r ?w] =>
           destruct (pca_acquireTokenPopup p r w) as [w3 [result|e]]
       end; simpl.
  all: try (destruct (result_account result); simpl).
  all: rewrite silent_calls_app, Hinit_silent; simpl;
       (split; [reflexivity|]);
       intros ? ? ? [[= <- _ _]|[]]; reflexivity.
Qed.

End AcquireTokenFrame.

Section AcquireTokenMore.
Context {W Pca J : Type} `{!Host W Pca J}.
Variables (wanted : list string) (resource : string) (s : State W Pca).

Ltac walk :=
  destruct (init_records_no_acquisition s)
    as (Hinit_silent & Hinit_popup & Hinit_fetch);
  destruct (acquireToken_path wanted resource s)
    as [e0 Hinit Hev Hout Hst
       | request0 result0 Hinit Hreq Hres Hev Hout Hst
       | request0 e0 result0 Hinit Hreq Hir Hev Hout Hst];
  rewrite ?Hev, ?Hout, ?silent_calls_app, ?popup_calls_app, ?fetch_calls_app,
    ?Hinit_silent, ?Hinit_popup, ?Hinit_fetch;
  simpl.

Lemma other_key (r' : string) :
  r' <> resource ->
  challenge_key resource <> STORAGE_KEY_PREFIX +:+ r'.
Proof.
  intros Hne Heq. apply Hne. symmetry.
  exact (storage_key_injective _ _ Heq).
Qed.

Lemma acquireToken_other_storage (r' : string) :
  r' <> resource ->
  sessionStorage (final (acquireToken wanted resource s))
    !! (STORAGE_KEY_PREFIX +:+ r')
  = sessionStorage s !! (STORAGE_KEY_PREFIX +:+ r').
Proof.
  intros Hne. apply other_key in Hne.
  walk; rewrite Hst.
  - reflexivity.
  - destruct result0; [|reflexivity].
    destruct (truthy_opt (stored_challenge resource s)); [|reflexivity].
    apply lookup_delete_ne, Hne.
  - assert (Hinteractive :
              interactive_storage resource s e0 !! (STORAGE_KEY_PREFIX +:+ r')
              = sessionStorage s !! (STORAGE_KEY_PREFIX +:+ r')).
    { unfold interactive_storage. destruct (truthy (error_claims e0));
        [apply lookup_insert_ne, Hne | reflexivity]. }
    destruct result0; [|exact Hinteractive].
    rewrite lookup_delete_ne by exact Hne. exact Hinteractive.
Qed.



(** A token the function returns is the result of a call it made. *)
Lemma acquireToken_token_origin (t : AuthenticationResult) :
  outcome (acquireToken wanted resource s) = Normal t ->
  (exists request storage,
      In (request, storage, Normal t)
         (silent_calls (events (acquireToken wanted resource s))))
  \/ (exists request storage,
        In (request, storage, Normal t)
           (popup_calls (events (acquireToken wanted resource s)))).
Proof.
  walk.
  - discriminate.
  - intros ->. left. eexists _, _. left. reflexivity.
  - intros ->. right. eexists _, _. left. reflexivity.
Qed.

Lemma acquireToken_success_initialised :
  is_Normal (outcome (acquireToken wanted resource s)) = true ->
  is_Normal (outcome (getMsalInstance s)) = true.
Proof.
  destruct (acquireToken_path wanted resource s)
    as [e0 Hinit Hev Hout Hst
       | request0 result0 Hinit Hreq Hres Hev Hout Hst
       | request0 e0 result0 Hinit Hreq Hir Hev Hout Hst]; auto.
  rewrite Hout. discriminate.
Qed.

(** X5 (acquireToken).  A token acquisition for one resource never
    changes the challenge stored for another resource, whichever way the
    acquisition goes. *)
Theorem acquireToken_leaves_other_resources (r' : string) :
  r' <> resource ->
  outcome (getStoredClaimsChallenge r'
             (final (acquireToken wanted resource s)))
  = outcome (getStoredClaimsChallenge r' s).
Proof.
  intros Hne. rewrite !getStoredClaimsChallenge_outcome. f_equal.
  apply acquireToken_other_storage, Hne.
Qed.


(** X7 (acquireToken, buildGraphRequest).  The request handed to the
    interactive acquisition is the one of the silent acquisition, but
    for the claims: both ask for the scopes of the call, with the same
    account and the same forceRefresh, and the claims differ only when
    the interaction-required error carried a non-empty claims string,
    which is then the claims of the interactive request. *)
Theorem acquireToken_interactive_request_differs_in_claims_only
    (silent popup : PopupRequest) (storage storage' : gmap string string)
    (result result' : Completion AuthenticationResult) :
  let run := acquireToken wanted resource s in
  In (silent, storage, result) (silent_calls (events run)) ->
  In (popup, storage', result') (popup_calls (events run)) ->
  scopes silent = wanted
  /\ scopes popup = wanted
  /\ account popup = account silent
  /\ forceRefresh popup = forceRefresh silent
  /\ (claims popup = claims silent
      \/ exists code e,
           result = Throw (InteractionRequiredAuthError code e)
           /\ e <> EmptyString /\ claims popup = Some e).
Proof.
  intros run. subst run. walk.
  - intros [].
  - intros _ [].
  - intros [[= <- _ <-]|[]] [[= <- _ _]|[]].
    destruct Hreq as (Hscopes & _ & _). unfold interactive_request.
    destruct e0 as [code0 claims0|name msg]; [|discriminate Hir]. simpl.
    destruct (truthy claims0) eqn:Htruthy; simpl.
    + repeat split; auto. right. exists code0, claims0.
      apply truthy_true in Htruthy. auto.
    + repeat split; auto.
Qed.

(** X8 (acquireToken).  The calls one acquisition makes: at most one
    silent and at most one interactive acquisition, and never a fetch;
    the interactive one only after the silent one failed with an
    interaction-required error; a result of the silent acquisition is
    returned without any interactive call; and the settlement of the
    interactive acquisition, result or error, is the outcome. *)
Theorem acquireToken_call_discipline :
  let run := acquireToken wanted resource s in
  length (silent_calls (events run)) <= 1
  /\ length (popup_calls (events run)) <= 1
  /\ fetch_calls (events run) = []
  /\ (popup_calls (events run) <> [] ->
      exists request storage code e,
        silent_calls (events run)
        = [(request, storage, Throw (InteractionRequiredAuthError code e))])
  /\ (forall request storage result,
        In (request, storage, Normal result) (silent_calls (events run)) ->
        popup_calls (events run) = [] /\ outcome run = Normal result)
  /\ (forall request storage result,
        In (request, storage, result) (popup_calls (events run)) ->
        outcome run = result).
Proof.
  intros run. subst run. walk.
  all: (split; [lia|]); (split; [lia|]); (split; [reflexivity|]).
  - split; [congruence|]. split; intros ? ? ? [].
  - split; [congruence|].
    split; [|intros ? ? ? []].
    intros request storage result [[= _ _ ->]|[]]. auto.
  - destruct e0 as [code0 claims0|name msg]; [|discriminate Hir].
    split; [eauto|]. split.
    + intros request storage result [[=]|[]].
    + intros request storage result [[= _ _ ->]|[]]. reflexivity.
Qed.

End AcquireTokenMore.

Section Client.
Context {W Pca J : Type} `{!Host W Pca J}.

Lemma acquireToken_created_clients (wanted : list string) (resource : string)
    (s : State W Pca) :
  created_clients (events (acquireToken wanted resource s))
  = created_clients (events (getMsalInstance s)).
Proof.
  destruct (acquireToken_path wanted resource s)
    as [e _ Hev _ _ | request result _ _ _ Hev _ _
       | request e result _ _ _ Hev _ _];
    rewrite Hev, ?created_clients_app; simpl; auto using app_nil_r.
Qed.

Lemma getMsalInstance_created_clients (s : State W Pca) :
  (forall pca, msalInstance s = Some pca ->
               created_clients (events (getMsalInstance s)) = [])
  /\ length (created_clients (events (getMsalInstance s))) <= 1.
Proof.
  split.
  - intros pca Hcached. rewrite (getMsalInstance_cached s pca Hcached).
    reflexivity.
  - destruct (getMsalInstance_run s) as (_ & [Hev | (c & Hev & _)] & _);
      rewrite Hev; simpl; lia.
Qed.

Lemma acquireToken_client_after (wanted : list string) (resource : string)
    (s : State W Pca) :
  is_Normal (outcome (getMsalInstance s)) = true ->
  exists pca,
    outcome (getMsalInstance s) = Normal pca
    /\ msalInstance (final (acquireToken wanted resource s)) = Some pca.
Proof.
  intros Hinit.
  destruct (acquireToken_frame wanted resource s) as (Hframe & _).
  destruct (getMsalInstance_run s) as (_ & _ & Hset).
  destruct (outcome (getMsalInstance s)) as [pca|e] eqn:Hout;
    [|discriminate Hinit].
  exists pca. split; [reflexivity|]. rewrite Hframe. apply Hset. reflexivity.
Qed.

(** X9 (acquireToken, getActiveAccount).  The account of the request
    handed to the silent acquisition is what [getActiveAccount] returns
    right after the client is initialised: the request names no account
    exactly when there is none. *)
Theorem acquireToken_request_names_active_account
    (wanted : list string) (resource : string) (s : State W Pca)
    (request : PopupRequest) (storage : gmap string string)
    (result : Completion AuthenticationResult) :
  In (request, storage, result)
     (silent_calls (events (acquireToken wanted resource s))) ->
  outcome (getActiveAccount (final (getMsalInstance s)))
  = Normal (account request).
Proof. apply (proj2 (acquireToken_frame wanted resource s)). Qed.

(** X10 (acquireToken, getMsalInstance).  An acquisition constructs at
    most one client, and none when the client variable is already set,
    in which case the variable is kept; once an acquisition got past its
    initialisation, a later acquisition constructs no client. *)
Theorem acquireToken_constructs_the_client_once
    (wanted : list string) (resource : string) (s : State W Pca) :
  let run := acquireToken wanted resource s in
  length (created_clients (events run)) <= 1
  /\ (forall pca, msalInstance s = Some pca ->
        created_clients (events run) = []
        /\ msalInstance (final run) = Some pca)
  /\ (is_Normal (outcome (getMsalInstance s)) = true ->
      forall wanted' resource',
        created_clients
          (events (acquireToken wanted' resource' (final run))) = []).
Proof.
  intros run. subst run. rewrite acquireToken_created_clients.
  split; [apply getMsalInstance_created_clients|]. split.
  - intros pca Hcached.
    split; [exact (proj1 (getMsalInstance_created_clients s) pca Hcached)|].
    destruct (acquireToken_client_after wanted resource s) as (pca' & Hout & Hafter).
    + rewrite (getMsalInstance_cached s pca Hcached). reflexivity.
    + rewrite (getMsalInstance_cached s pca Hcached) in Hout. simpl in Hout.
      congruence.
  - intros Hinit wanted' resource'.
    destruct (acquireToken_client_after wanted resource s Hinit)
      as (pca & _ & Hafter).
    rewrite acquireToken_created_clients.
    exact (proj1 (getMsalInstance_created_clients _) pca Hafter).
Qed.

End Client.

(* ================================================================== *)
(** ** Accounts, login and logout                                      *)
(* ================================================================== *)

Section Accounts.
Context {W Pca J : Type} `{!Host W Pca J}.


Lemma getActiveAccount_none_unchanged (s : State W Pca) :
  outcome (getActiveAccount s) = Normal None -> final (getActiveAccount s) = s.
Proof.
  unfold getActiveAccount, read_msalInstance, read_world, setActiveAccount,
    bind, prefixed, ret.
  destruct s as [inst storage w]. simpl. destruct inst as [pca|]; simpl;
    [|reflexivity].
  destruct (pca_getActiveAccount pca w); simpl; [reflexivity|].
  destruct (pca_getAllAccounts pca w); simpl; [reflexivity | discriminate].
Qed.

(** X12 (getActiveAccount).  The function returns null exactly when
    there is no client yet, or the client has neither an active nor a
    cached account, and then the state is unchanged; it never throws,
    records no call, and never touches the session storage or the
    client variable. *)
Theorem getActiveAccount_reports_no_account (s : State W Pca) :
  let run := getActiveAccount s in
  (outcome run = Normal None
   <-> msalInstance s = None
       \/ exists pca,
            msalInstance s = Some pca
            /\ pca_getActiveAccount pca (world s) = None
            /\ pca_getAllAccounts pca (world s) = [])
  /\ (outcome run = Normal None -> final run = s)
  /\ is_Normal (outcome run) = true
  /\ events run = []
  /\ sessionStorage (final run) = sessionStorage s
  /\ msalInstance (final run) = msalInstance s.
Proof.
  intros run. subst run.
  unfold getActiveAccount, read_msalInstance, read_world, setActiveAccount,
    bind, prefixed, ret.
  destruct s as [inst storage w]. simpl. destruct inst as [pca|]; simpl.
  2:{ repeat split; auto. }
  destruct (pca_getActiveAccount pca w) as [a|] eqn:Hactive; simpl.
  { repeat split; auto; try discriminate.
    intros [[=] | (pca' & [= <-] & Hnone & _)]. congruence. }
  destruct (pca_getAllAccounts pca w) as [|first cached] eqn:Hall; simpl.
  - repeat split; auto. intros _. right. exists pca. auto.
  - repeat split; auto; try discriminate.
    intros [[=] | (pca' & [= <-] & _ & Hnil)]. congruence.
Qed.

(** Sign-in. *)
Lemma login_run (s : State W Pca) :
  let run := login s in
  (exists e,
      outcome (getMsalInstance s) = Throw e
      /\ run = {| final := final (getMsalInstance s);
                  events := events (getMsalInstance s);
                  outcome := Throw e |})
  \/ exists pca w result,
       outcome (getMsalInstance s) = Normal pca
       /\ pca_acquireTokenPopup pca loginRequest
            (world (final (getMsalInstance s))) = (w, result)
       /\ events run
          = events (getMsalInstance s)
            ++ [AcquireTokenPopup loginRequest (sessionStorage s) result]
       /\ outcome run = result
       /\ msalInstance (final run) = Some pca
       /\ sessionStorage (final run) = sessionStorage s
       /\ world (final run)
          = match result with
            | Normal {| result_account := Some a |} =>
                pca_setActiveAccount pca a w
            | _ => w
            end.
Proof.
  intros run. subst run. unfold login.
  destruct (getMsalInstance_run s) as (Hstorage & _ & Hset).
  destruct (getMsalInstance s) as [s0 evs0 [pca|e]] eqn:Hinit; simpl in *.
  2:{ left. exists e. erewrite bind_Throw by eassumption. auto. }
  right. erewrite bind_Normal by eassumption.
  specialize (Hset pca eq_refl).
  destruct s0 as [inst0 storage0 w0]. simpl in *. subst inst0 storage0.
  unfold acquireTokenPopup, host_call, setActiveAccount, bind, prefixed, ret,
    with_world. simpl.
  destruct (pca_acquireTokenPopup pca loginRequest w0) as [w [result|e]]
    eqn:Hpopup; simpl.
  - exists pca, w, (Normal result).
    destruct result as [token [a|]]; simpl; repeat split; auto.
  - exists pca, w, (Throw e). repeat split; auto.
Qed.

(** X13 (login).  Sign-in never touches the session storage and makes
    neither a silent acquisition nor a fetch; when the client cannot be
    initialised that error is thrown and nothing is asked; otherwise
    exactly one interactive acquisition is made, with [loginRequest],
    and its settlement is the outcome. *)
Theorem login_asks_once_with_the_login_request (s : State W Pca) :
  let run := login s in
  sessionStorage (final run) = sessionStorage s
  /\ silent_calls (events run) = []
  /\ fetch_calls (events run) = []
  /\ (forall e, outcome (getMsalInstance s) = Throw e ->
        outcome run = Throw e /\ popup_calls (events run) = [])
  /\ (is_Normal (outcome (getMsalInstance s)) = true ->
      exists result,
        popup_calls (events run)
        = [(loginRequest, sessionStorage s, result)]
        /\ outcome run = result).
Proof.
  intros run. subst run.
  destruct (init_records_no_acquisition s) as (Hsilent & Hpopup & Hfetch).
  destruct (getMsalInstance_run s) as (Hstorage & _ & _).
  destruct (login_run s) as [(e & Hinit & Hrun)
                            | (pca & w & result & Hinit & _ & Hev & Hout
                               & _ & Hst & _)].
  - rewrite Hrun. simpl. rewrite Hinit.
    split; [exact Hstorage|]. split; [exact Hsilent|].
    split; [exact Hfetch|]. split.
    + intros e' [= <-]. auto.
    + discriminate.
  - rewrite Hev, Hout, Hst, Hinit, silent_calls_app, popup_calls_app,
      fetch_calls_app, Hsilent, Hpopup, Hfetch. simpl.
    split; [reflexivity|]. split; [reflexivity|].
    split; [reflexivity|]. split.
    + intros e [=].
    + intros _. exists result. auto.
Qed.

(** X14 (login, getActiveAccount).  After a sign-in that returned a
    result with an account, on a client that reads back the account it
    was told is active, [getActiveAccount] gives that account. *)
Theorem login_makes_the_account_active (s : State W Pca)
    (result : AuthenticationResult) (a : AccountInfo) :
  remembers_active_account (W := W) (Pca := Pca) (J := J) ->
  outcome (login s) = Normal result ->
  result_account result = Some a ->
  outcome (getActiveAccount (final (login s))) = Normal (Some a).
Proof.
  intros Hlaw Hout Haccount.
  destruct (login_run s) as [(e & _ & Hrun)
                            | (pca & w & result' & _ & _ & _ & Hout'
                               & Hinst & _ & Hworld)].
  - rewrite Hrun in Hout. discriminate Hout.
  - rewrite Hout in Hout'. subst result'.
    destruct result as [token account']. simpl in Haccount. subst account'.
    destruct (final (login s)) as [inst storage w']. simpl in *.
    subst inst w'.
    unfold getActiveAccount, read_msalInstance, read_world, bind, prefixed, ret.
    simpl. rewrite Hlaw. reflexivity.
Qed.

End Accounts.

Section SignOut.
Context {W Pca J : Type} `{!CacheHost W Pca J}.

Lemma logout_run (s : State W Pca) :
  let init := getMsalInstance s in
  let run := logout s in
  match outcome init with
  | Throw e =>
      run = {| final := final init; events := events init; outcome := Throw e |}
  | Normal pca =>
      let found := getActiveAccount (final init) in
      match outcome found with
      | Normal (Some a) =>
          run = {| final := with_world (final found)
                              (pca_clearCache (J := J) pca a
                                 (world (final found))).1;
                   events := events init;
                   outcome := (pca_clearCache (J := J) pca a
                                 (world (final found))).2 |}
      | _ => run = {| final := final found; events := events init;
                      outcome := Normal tt |}
      end
  end.
Proof.
  intros init run. subst init run. unfold logout.
  destruct (getMsalInstance s) as [s0 evs0 [pca|e]] eqn:Hinit; simpl.
  2:{ erewrite bind_Throw by eassumption. reflexivity. }
  erewrite bind_Normal by eassumption.
  destruct (getActiveAccount_run s0) as (w1 & a & Haccount).
  erewrite bind_Normal by eassumption. rewrite Haccount. simpl.
  destruct a as [a|]; simpl.
  - unfold clearCache. simpl.
    destruct (pca_clearCache pca a w1) as [w c]. simpl.
    rewrite app_nil_r. reflexivity.
  - unfold ret. simpl. rewrite app_nil_r. reflexivity.
Qed.

(** X15 (logout).  Sign-out never touches the session storage, so
    pending claims challenges survive it; it makes no acquisition and no
    fetch; and with the client variable set it keeps the variable and
    records no call at all. *)
Theorem logout_keeps_challenges_and_client (s : State W Pca) :
  let run := logout s in
  sessionStorage (final run) = sessionStorage s
  /\ silent_calls (events run) = []
  /\ popup_calls (events run) = []
  /\ fetch_calls (events run) = []
  /\ forall pca, msalInstance s = Some pca ->
       msalInstance (final run) = Some pca /\ events run = [].
Proof.
  intros run. subst run.
  destruct (init_records_no_acquisition s) as (Hsilent & Hpopup & Hfetch).
  destruct (getMsalInstance_run s) as (Hstorage & _ & Hset).
  pose proof (logout_run s) as Hrun. cbv zeta in Hrun.
  assert (Hcached : forall pca, msalInstance s = Some pca ->
             outcome (getMsalInstance s) = Normal pca
             /\ events (getMsalInstance s) = []).
  { intros pca Hc. rewrite (getMsalInstance_cached s pca Hc). auto. }
  destruct (outcome (getMsalInstance s)) as [pca|e] eqn:Hout.
  - specialize (Hset pca eq_refl).
    destruct (getActiveAccount_run (final (getMsalInstance s)))
      as (w1 & a & Haccount).
    rewrite Haccount in Hrun. simpl in Hrun.
    assert (Hfinal : sessionStorage (final (logout s)) = sessionStorage s
                     /\ msalInstance (final (logout s)) = Some pca
                     /\ events (logout s) = events (getMsalInstance s)).
    { destruct a as [a|]; rewrite Hrun; simpl; auto. }
    destruct Hfinal as (Hst & Hinst & Hev).
    rewrite Hev, Hst.
    split; [reflexivity|]. split; [exact Hsilent|]. split; [exact Hpopup|].
    split; [exact Hfetch|].
    intros pca' Hc. destruct (Hcached pca' Hc) as ([= <-] & Hnil). auto.
  - rewrite Hrun. simpl.
    split; [exact Hstorage|]. split; [exact Hsilent|]. split; [exact Hpopup|].
    split; [exact Hfetch|].
    intros pca Hc. destruct (Hcached pca Hc) as ([=] & _).
Qed.

(** X16 (logout).  With no account to sign out, [logout] is exactly the
    client initialisation: the cache is not cleared and nothing else
    happens. *)
Theorem logout_without_account_clears_nothing (s : State W Pca) :
  is_Normal (outcome (getMsalInstance s)) = true ->
  outcome (getActiveAccount (final (getMsalInstance s))) = Normal None ->
  logout s
  = {| final := final (getMsalInstance s);
       events := events (getMsalInstance s);
       outcome := Normal tt |}.
Proof.
  intros Hinit Hnone.
  pose proof (logout_run s) as Hrun. cbv zeta in Hrun.
  destruct (outcome (getMsalInstance s)) as [pca|e]; [|discriminate Hinit].
  rewrite Hnone in Hrun. rewrite Hrun. f_equal.
  apply getActiveAccount_none_unchanged, Hnone.
Qed.

End SignOut.

(* ================================================================== *)
(** ** More on callGraphWithClaimsRetry                                *)
(* ================================================================== *)

Section CallGraphMore.
Context {W Pca J : Type} `{!Host W Pca J}.

Lemma bind_final {A B} (m : M A) (k : A -> M B) (s : State W Pca) :
  final (bind m k s)
  = match outcome (m s) with
    | Normal a => final (k a (final (m s)))
    | Throw _ => final (m s)
    end.
Proof.
  unfold bind. destruct (m s) as [s1 evs1 [a|e]]; simpl.
  - apply prefixed_final.
  - reflexivity.
Qed.

(** The end of [callGraphWithClaimsRetry], from the response on. *)
Lemma response_settled (response : Response) (s : State W Pca) :
  (if negb (response_ok response) then
     bind (lift (response_text response))
       (fun errorBody =>
          throw (Error "Error" (graph_error_message response errorBody)))
   else
     bind (lift (response_text response))
       (fun body => lift (JSON_parse body))) s
  = {| final := s; events := []; outcome := settle_response response |}.
Proof.
  unfold settle_response, bind, lift, throw, prefixed.
  destruct (response_ok response); simpl;
    destruct (response_text response) as [body|e]; simpl; try reflexivity.
  all: try (destruct (JSON_parse body); reflexivity).
Qed.

(** The step between the first response and the status check, with the
    state it ends in. *)
Lemma retry_step_state (url : string) (wanted : list string) (r1 : Response)
    (s : State W Pca) :
  let step :=
    (if (status r1 =? 401)%N then
       bind (handleClaimsChallengeFromResponse r1 RESOURCE)
         (fun claims =>
            if truthy_opt claims then
              bind (acquireToken wanted RESOURCE)
                (fun tokenResult =>
                   do_fetch url ("Bearer " +:+ accessToken tokenResult))
            else ret r1)
     else ret r1) s in
  ((forall c, yields_claims r1 c -> c = EmptyString)
   /\ step = {| final := s; events := []; outcome := Normal r1 |})
  \/ exists c,
       yields_claims r1 c /\ c <> EmptyString
       /\ let second :=
            acquireToken wanted RESOURCE (challenge_stored RESOURCE c s) in
          match outcome second with
          | Throw e =>
              step = {| final := final second; events := events second;
                        outcome := Throw e |}
          | Normal tokenResult =>
              exists w retried,
                fetch url ("Bearer " +:+ accessToken tokenResult)
                  (world (final second)) = (w, retried)
                /\ step
                   = {| final := with_world (final second) w;
                        events :=
                          events second
                          ++ [Fetch url ("Bearer " +:+ accessToken tokenResult)
                                retried];
                        outcome := retried |}
          end.
Proof.
  intros step. subst step.
  pose proof (fun c => handleClaimsChallengeFromResponse_found r1 RESOURCE c s)
    as Hfound'.
  destruct (handleClaimsChallengeFromResponse_run r1 RESOURCE s)
    as (found & Hrun & H401 & Hyield).
  destruct (truthy_opt found) eqn:Hfound.
  - apply truthy_opt_true in Hfound as (c & -> & Hne).
    rewrite (H401 ltac:(discriminate)). simpl.
    right. exists c.
    split; [apply (Hfound' c); rewrite Hrun; reflexivity|].
    split; [exact Hne|].
    apply truthy_true in Hne. rewrite Hne in Hrun.
    erewrite bind_Normal by exact Hrun. simpl. rewrite Hne.
    destruct (acquireToken wanted RESOURCE (challenge_stored RESOURCE c s))
      as [s4 evs4 [t2|e2]] eqn:Hacq2; simpl.
    + erewrite bind_Normal by exact Hacq2.
      unfold do_fetch, host_call.
      destruct (fetch url ("Bearer " +:+ accessToken t2) (world s4))
        as [w5 retried].
      exists w5, retried. simpl. auto.
    + erewrite bind_Throw by exact Hacq2. reflexivity.
  - left.
    assert (Hnone : forall c, yields_claims r1 c -> c = EmptyString).
    { intros c Hc. rewrite (Hyield c Hc) in Hfound. simpl in Hfound.
      destruct c; [reflexivity | discriminate Hfound]. }
    split; [exact Hnone|].
    destruct (status r1 =? 401)%N; [|reflexivity].
    erewrite bind_Normal by exact Hrun. rewrite Hfound.
    destruct found as [[|ch c]|]; try discriminate Hfound; reflexivity.
Qed.

Lemma prefixed_prefixed {A} (a b : list (Event Pca)) (r : Run W Pca A) :
  prefixed a (prefixed b r) = prefixed (a ++ b) r.
Proof. destruct r. simpl. rewrite app_assoc. reflexivity. Qed.

(** The ways a run of [callGraphWithClaimsRetry] can go. *)
Lemma callGraph_run (endpoint : string) (wanted : list string)
    (s : State W Pca) :
  let run := callGraphWithClaimsRetry endpoint wanted s in
  let first := acquireToken wanted RESOURCE s in
  let url := GRAPH_BASE +:+ endpoint in
  match outcome first with
  | Throw e =>
      run = {| final := final first; events := events first;
               outcome := Throw e |}
  | Normal t1 =>
      exists w c1,
        fetch url ("Bearer " +:+ accessToken t1) (world (final first))
        = (w, c1)
        /\ let fetched := Fetch url ("Bearer " +:+ accessToken t1) c1 in
           let s2 := with_world (final first) w in
           match c1 with
           | Throw e =>
               run = {| final := s2; events := events first ++ [fetched];
                        outcome := Throw e |}
           | Normal r1 =>
               ((forall c, yields_claims r1 c -> c = EmptyString)
                /\ run = {| final := s2; events := events first ++ [fetched];
                            outcome := settle_response r1 |})
               \/ exists c,
                    yields_claims r1 c /\ c <> EmptyString
                    /\ let second :=
                         acquireToken wanted RESOURCE
                           (challenge_stored RESOURCE c s2) in
                       match outcome second with
                       | Throw e =>
                           run = {| final := final second;
                                    events :=
                                      events first ++ fetched :: events second;
                                    outcome := Throw e |}
                       | Normal t2 =>
                           exists w' c2,
                             fetch url ("Bearer " +:+ accessToken t2)
                               (world (final second)) = (w', c2)
                             /\ run
                                = {| final := with_world (final second) w';
                                     events :=
                                       events first
                                       ++ fetched :: events second
                                       ++ [Fetch url
                                             ("Bearer " +:+ accessToken t2) c2];
                                     outcome :=
                                       match c2 with
                                       | Normal r2 => settle_response r2
                                       | Throw e => Throw e
                                       end |}
                       end
           end
  end.
Proof.
  intros run first url. subst run first url.
  unfold callGraphWithClaimsRetry.
  destruct (acquireToken wanted RESOURCE s) as [s1 evs1 [t1|e1]] eqn:Hacq1;
    simpl.
  2:{ erewrite bind_Throw by eassumption. reflexivity. }
  erewrite bind_Normal by eassumption.
  destruct (fetch (GRAPH_BASE +:+ endpoint) ("Bearer " +:+ accessToken t1)
              (world s1)) as [w2 [r1|e]] eqn:Hfetch1;
    exists w2; eexists; (split; [reflexivity|]); simpl.
  2:{ erewrite bind_Throw by (apply do_fetch_run; eassumption). reflexivity. }
  erewrite bind_Normal by (apply do_fetch_run; eassumption).
  rewrite prefixed_prefixed.
  pose proof (retry_step_state (GRAPH_BASE +:+ endpoint) wanted r1
                (with_world s1 w2)) as Hstep.
  cbv zeta in Hstep.
  destruct Hstep as [(Hnone & Hstep) | (c & Hyields & Hne & Hstep)].
  - left. split; [exact Hnone|].
    erewrite bind_Normal by exact Hstep.
    rewrite response_settled. simpl. rewrite app_nil_r. reflexivity.
  - right. exists c. split; [exact Hyields|]. split; [exact Hne|].
    destruct (outcome (acquireToken wanted RESOURCE
                         (challenge_stored RESOURCE c (with_world s1 w2))))
      as [t2|e2] eqn:Hacq2.
    + destruct Hstep as (w' & c2 & Hfetch2 & Hstep).
      exists w', c2. split; [exact Hfetch2|].
      destruct c2 as [r2|e].
      * erewrite bind_Normal by exact Hstep.
        rewrite response_settled. simpl.
        rewrite app_nil_r, <- app_assoc. reflexivity.
      * erewrite bind_Throw by exact Hstep. simpl.
        rewrite <- app_assoc. reflexivity.
    + erewrite bind_Throw by exact Hstep. simpl.
      rewrite <- app_assoc. reflexivity.
Qed.

End CallGraphMore.

Section Records.
Context {W Pca J : Type} `{!Host W Pca J}.

Lemma silent_calls_fetch (url authorization : string)
    (c : Completion Response) (evs : list (Event Pca)) :
  silent_calls (Fetch url authorization c :: evs) = silent_calls evs.
Proof. reflexivity. Qed.

Lemma popup_calls_fetch (url authorization : string)
    (c : Completion Response) (evs : list (Event Pca)) :
  popup_calls (Fetch url authorization c :: evs) = popup_calls evs.
Proof. reflexivity. Qed.

Lemma created_clients_fetch (url authorization : string)
    (c : Completion Response) (evs : list (Event Pca)) :
  created_clients (Fetch url authorization c :: evs) = created_clients evs.
Proof. reflexivity. Qed.


End Records.

Section CallGraphProperties.
Context {W Pca J : Type} `{!Host W Pca J}.
Variables (endpoint : string) (wanted : list string) (s : State W Pca).

Ltac graph_walk :=
  let Hrun := fresh "Hrun" in
  pose proof (callGraph_run endpoint wanted s) as Hrun; cbv zeta in Hrun;
  pose proof (acquireToken_no_fetch wanted RESOURCE s) as Hfetch_first;
  destruct (outcome (acquireToken wanted RESOURCE s)) as [t1|e1] eqn:Hfirst;
    [ destruct Hrun as (w1 & c1 & Hfetch1 & Hrun);
      destruct c1 as [r1|e1];
        [ destruct Hrun as [(Hnone & Hrun) | (c & Hyields & Hne & Hrun)];
            [ | pose proof (acquireToken_no_fetch wanted RESOURCE
                              (challenge_stored RESOURCE c
                                 (with_world
                                    (final (acquireToken wanted RESOURCE s))
                                    w1))) as Hfetch_second;
                destruct (outcome
                            (acquireToken wanted RESOURCE
                               (challenge_stored RESOURCE c
                                  (with_world
                                     (final (acquireToken wanted RESOURCE s))
                                     w1)))) as [t2|e2] eqn:Hsecond;
                  [ destruct Hrun as (w2 & c2 & Hfetch2 & Hrun) | ] ]
        | ]
    | ];
  rewrite Hrun; simpl;
  rewrite ?fetch_calls_app, ?fetch_calls_cons, ?fetch_calls_app;
  repeat match goal with
         | H : fetch_calls (events _) = [] |- _ => rewrite ?H; clear H
         end;
  simpl.

(** X17 (callGraphWithClaimsRetry).  When the first token acquisition
    fails the call is that acquisition: same error, same record, same
    final state, and no request is sent; conversely a run that sent no
    request is one whose first acquisition failed. *)
Theorem callGraph_sends_nothing_without_a_token :
  let run := callGraphWithClaimsRetry endpoint wanted s in
  let first := acquireToken wanted RESOURCE s in
  (forall e, outcome first = Throw e ->
     outcome run = Throw e /\ events run = events first
     /\ final run = final first)
  /\ (fetch_calls (events run) = [] -> is_Normal (outcome first) = false).
Proof.
  intros run first. subst run first. graph_walk.
  all: split; [try discriminate | try discriminate; try reflexivity].
  intros e [= <-]. auto.
Qed.

(** X18 (callGraphWithClaimsRetry).  Every request the call sends goes
    to GRAPH_BASE followed by the endpoint, and its Authorization header
    is Bearer followed by the access token of a result that a silent or
    interactive acquisition returned during this very call. *)
Theorem callGraph_fetches_carry_acquired_tokens
    (url authorization : string) (result : Completion Response) :
  let run := callGraphWithClaimsRetry endpoint wanted s in
  In (url, authorization, result) (fetch_calls (events run)) ->
  url = GRAPH_BASE +:+ endpoint
  /\ exists t,
       authorization = "Bearer " +:+ accessToken t
       /\ ((exists request storage,
               In (request, storage, Normal t) (silent_calls (events run)))
           \/ (exists request storage,
                 In (request, storage, Normal t) (popup_calls (events run)))).
Proof.
  intros run. subst run. graph_walk.
  all: rewrite ?silent_calls_app, ?popup_calls_app, ?silent_calls_fetch,
         ?popup_calls_fetch, ?silent_calls_app, ?popup_calls_app.
  all: try (apply acquireToken_token_origin in Hfirst).
  all: try (apply acquireToken_token_origin in Hsecond).
  all: try (intros []; fail).
  all: intros Hin.
  all: repeat (destruct Hin as [[= <- <- <-] | Hin]); try destruct Hin.
  all: split; [reflexivity|].
  all: try (exists t1; split; [reflexivity|];
            destruct Hfirst as [(rq & st & Hin) | (rq & st & Hin)];
            [left | right]; exists rq, st; apply in_or_app; left; exact Hin).
  all: exists t2; split; [reflexivity|];
       destruct Hsecond as [(rq & st & Hin) | (rq & st & Hin)];
       [left | right]; exists rq, st; apply in_or_app; right;
       apply in_or_app; left; exact Hin.
Qed.

(** X19 (callGraphWithClaimsRetry).  When fetch itself fails (the
    request is rejected, not answered), that error is the outcome of the
    call and the failed request is the last one sent: a failed request
    is never retried. *)
Theorem callGraph_failed_fetch_propagates
    (url authorization : string) (e : JsError) :
  let run := callGraphWithClaimsRetry endpoint wanted s in
  In (url, authorization, Throw e) (fetch_calls (events run)) ->
  outcome run = Throw e
  /\ last (fetch_calls (events run)) = Some (url, authorization, Throw e).
Proof.
  intros run. subst run. graph_walk.
  all: intros Hin.
  all: repeat match goal with
              | H : False |- _ => destruct H
              | H : _ \/ _ |- _ => destruct H as [H|H]
              | H : (_, _, Normal _) = (_, _, Throw _) |- _ => discriminate H
              end.
  all: injection Hin as <- <- Hresult.
  all: subst.
  all: split; reflexivity.
Qed.

(** X20 (callGraphWithClaimsRetry).  A first response that carries no
    usable claims challenge (any status other than 401, or a 401 whose
    header yields no non-empty claims) is final: no second request is
    sent, and the outcome is what the response settles to: the parsed
    body of a success, the Graph API error built from the status, the
    status text and the body otherwise, or the error of reading the
    body. *)
Theorem callGraph_unchallenged_response_settles
    (url authorization : string) (response : Response)
    (rest : list (string * string * Completion Response)) :
  let run := callGraphWithClaimsRetry endpoint wanted s in
  fetch_calls (events run) = (url, authorization, Normal response) :: rest ->
  (forall c, yields_claims response c -> c = EmptyString) ->
  rest = [] /\ outcome run = settle_response response.
Proof.
  intros run. subst run. graph_walk.
  all: try discriminate.
  all: intros [= <- <- <- <-] Hunchallenged.
  all: try (split; reflexivity).
  all: contradiction (Hne (Hunchallenged c Hyields)).
Qed.

(** X21 (callGraphWithClaimsRetry).  Data is only ever returned from
    the last response received, and only when that response is a
    success (status 200 to 299) whose body text parses to the data. *)
Theorem callGraph_returns_only_a_parsed_success_body (data : J) :
  let run := callGraphWithClaimsRetry endpoint wanted s in
  outcome run = Normal data ->
  exists before url authorization response body,
    fetch_calls (events run)
    = before ++ [(url, authorization, Normal response)]
    /\ response_ok response = true
    /\ response_text response = Normal body
    /\ JSON_parse body = Normal data.
Proof.
  assert (Hsettle : forall response : Response,
             settle_response response = Normal data ->
             exists body,
               response_ok response = true
               /\ response_text response = Normal body
               /\ JSON_parse body = Normal data).
  { intros response. unfold settle_response.
    destruct (response_text response) as [body|e]; [|discriminate].
    destruct (response_ok response); simpl; [|discriminate].
    intros Hparse. exists body. auto. }
  intros run. subst run. graph_walk.
  all: try discriminate.
  - intros (body & Hok & Htext & Hparse)%Hsettle.
    exists [], (GRAPH_BASE +:+ endpoint), ("Bearer " +:+ accessToken t1), r1, body.
    auto.
  - destruct c2 as [r2|e]; [|discriminate].
    intros (body & Hok & Htext & Hparse)%Hsettle.
    exists [(GRAPH_BASE +:+ endpoint, "Bearer " +:+ accessToken t1, Normal r1)],
      (GRAPH_BASE +:+ endpoint), ("Bearer " +:+ accessToken t2), r2, body.
    auto.
Qed.


(** X23 (callGraphWithClaimsRetry).  The call never changes the
    challenge stored for a resource other than graph. *)
Theorem callGraph_leaves_other_resources (r' : string) :
  r' <> RESOURCE ->
  outcome (getStoredClaimsChallenge r'
             (final (callGraphWithClaimsRetry endpoint wanted s)))
  = outcome (getStoredClaimsChallenge r' s).
Proof.
  intros Hother. rewrite !getStoredClaimsChallenge_outcome. f_equal.
  pose proof (acquireToken_other_storage wanted RESOURCE s r' Hother)
    as Hfirst_storage.
  graph_walk.
  all: try exact Hfirst_storage.
  all: rewrite (acquireToken_other_storage wanted RESOURCE _ r' Hother).
  all: simpl; rewrite lookup_insert_ne;
    [exact Hfirst_storage | apply other_key, Hother].
Qed.

(** X24 (callGraphWithClaimsRetry, getMsalInstance).  A call constructs
    at most one client although it may acquire a token twice, and with
    the client variable set it constructs none and keeps the
    variable. *)
Theorem callGraph_constructs_the_client_once :
  let run := callGraphWithClaimsRetry endpoint wanted s in
  length (created_clients (events run)) <= 1
  /\ (forall pca, msalInstance s = Some pca ->
        created_clients (events run) = []
        /\ msalInstance (final run) = Some pca).
Proof.
  intros run. subst run.
  pose proof (acquireToken_created_clients wanted RESOURCE s) as Hcreated.
  pose proof (getMsalInstance_created_clients s) as (Hcached & Hone).
  pose proof (acquireToken_frame wanted RESOURCE s) as (Hinst & _).
  assert (Hkept : forall pca, msalInstance s = Some pca ->
            msalInstance (final (acquireToken wanted RESOURCE s)) = Some pca).
  { intros pca Hpca. rewrite Hinst, (getMsalInstance_cached s pca Hpca).
    exact Hpca. }
  assert (Hsecond_created :
            is_Normal (outcome (acquireToken wanted RESOURCE s)) = true ->
            forall c w,
              created_clients
                (events (acquireToken wanted RESOURCE
                           (challenge_stored RESOURCE c
                              (with_world
                                 (final (acquireToken wanted RESOURCE s)) w))))
              = []
              /\ msalInstance
                   (final (acquireToken wanted RESOURCE
                             (challenge_stored RESOURCE c
                                (with_world
                                   (final (acquireToken wanted RESOURCE s))
                                   w))))
                 = msalInstance (final (acquireToken wanted RESOURCE s))).
  { intros Hok c w.
    apply acquireToken_success_initialised in Hok.
    destruct (acquireToken_client_after wanted RESOURCE s Hok)
      as (pca & _ & Hafter).
    rewrite acquireToken_created_clients.
    pose proof (acquireToken_frame wanted RESOURCE
                  (challenge_stored RESOURCE c
                     (with_world (final (acquireToken wanted RESOURCE s)) w)))
      as (Hinst2 & _).
    rewrite Hinst2.
    rewrite (getMsalInstance_cached _ pca) by exact Hafter.
    split; [reflexivity | simpl; reflexivity]. }
  graph_walk.
  all: rewrite ?created_clients_app, ?created_clients_fetch,
         ?created_clients_app; simpl.
  all: try (destruct (Hsecond_created eq_refl c w1) as (-> & ->)).
  all: simpl; rewrite ?app_nil_r, Hcreated.
  all: split; [exact Hone|].
  all: intros pca Hpca; split; [exact (Hcached pca Hpca) | exact (Hkept pca Hpca)].
Qed.


End CallGraphProperties.

(* ================================================================== *)
(** ** getMsalInstance, called again                                   *)
(* ================================================================== *)

Section ClientCache.
Context {W Pca J : Type} `{!Host W Pca J}.

(** X26 (getMsalInstance).  Only a constructed client is cached: after
    a call that returned a client, the next call returns the same
    client, records nothing and changes nothing; after a call whose
    construction failed, the variable is still null and the next call
    constructs again. *)
Theorem getMsalInstance_caches_success_only (s : State W Pca) :
  let run := getMsalInstance s in
  (forall pca, outcome run = Normal pca ->
     getMsalInstance (final run)
     = {| final := final run; events := []; outcome := Normal pca |})
  /\ (forall e, outcome run = Throw e ->
        msalInstance (final run) = None
        /\ created_clients (events run) = [Throw e]
        /\ created_clients (events (getMsalInstance (final run)))
           = [(createNestablePublicClientApplication msalConfig
                 (world (final run))).2]).
Proof.
  intros run. subst run. split.
  - intros pca Hout. apply getMsalInstance_cached.
    apply (getMsalInstance_run s), Hout.
  - intros e Hout.
    destruct (msalInstance s) as [pca|] eqn:Hinst.
    { rewrite (getMsalInstance_cached s pca Hinst) in Hout. discriminate Hout. }
    destruct (createNestablePublicClientApplication msalConfig (world s))
      as [w c] eqn:Hcreate.
    rewrite (getMsalInstance_created s w c Hinst Hcreate) in *. simpl in *.
    subst c. simpl. split; [exact Hinst|]. split; [reflexivity|].
    destruct (createNestablePublicClientApplication msalConfig w)
      as [w' c'] eqn:Hcreate'.
    rewrite (getMsalInstance_created (with_world s w) w' c' Hinst Hcreate').
    reflexivity.
Qed.

End ClientCache.

(* ================================================================== *)
(** ** The composable                                                  *)
(* ================================================================== *)

Section Facade.
Context {W Pca J : Type} `{!CacheHost W Pca J}.
Variable message : JsError -> string.

Lemma syncAccountState_run (r : UseAuth.Refs) (s : State W Pca) :
  UseAuth.syncAccountState r s
  = {| UseAuth.refs :=
         {| UseAuth.isAuthenticated :=
              match outcome (getActiveAccount s) with
              | Normal (Some _) => true
              | _ => false
              end;
            UseAuth.account :=
              match outcome (getActiveAccount s) with
              | Normal a => a
              | Throw _ => None
              end;
            UseAuth.isLoading := UseAuth.isLoading r;
            UseAuth.error := UseAuth.error r |};
       UseAuth.run := {| final := final (getActiveAccount s); events := [];
                         outcome := Normal tt |} |}.
Proof.
  unfold UseAuth.syncAccountState, UseAuth.and_then, UseAuth.service,
    UseAuth.assign, ret, prefixed.
  destruct (getActiveAccount_run s) as (w & a & ->). simpl.
  destruct a; reflexivity.
Qed.

(** X27 (useAuth.getToken).  The action never throws and ends with
    isLoading false, and records exactly the calls of the acquisition.
    When the acquisition returns a result, its access token is
    returned, error is null and the refs show the account
    [getActiveAccount] gives after the acquisition; when it fails, null
    is returned, error is the message of the thrown value, and the
    account refs are left as they were. *)
Theorem useAuth_getToken_settles (scopes : option (list string))
    (r : UseAuth.Refs) (s : State W Pca) :
  let acquired :=
    acquireToken (default graphScopes_userRead scopes) "graph" s in
  let out := UseAuth.getToken message scopes r s in
  UseAuth.isLoading (UseAuth.refs out) = false
  /\ events (UseAuth.run out) = events acquired
  /\ match outcome acquired with
     | Normal result =>
         outcome (UseAuth.run out) = Normal (Some (accessToken result))
         /\ UseAuth.error (UseAuth.refs out) = None
         /\ outcome (getActiveAccount (final acquired))
            = Normal (UseAuth.account (UseAuth.refs out))
         /\ UseAuth.in_step (UseAuth.refs out)
     | Throw e =>
         outcome (UseAuth.run out) = Normal None
         /\ UseAuth.error (UseAuth.refs out) = Some (message e)
         /\ UseAuth.account (UseAuth.refs out) = UseAuth.account r
         /\ UseAuth.isAuthenticated (UseAuth.refs out)
            = UseAuth.isAuthenticated r
         /\ final (UseAuth.run out) = final acquired
     end.
Proof.
  intros acquired out. subst acquired out.
  unfold UseAuth.getToken, UseAuth.try_catch_finally, UseAuth.and_then,
    UseAuth.assign, UseAuth.service, UseAuth.pure, ret, prefixed.
  simpl.
  destruct (acquireToken (default graphScopes_userRead scopes) "graph" s)
    as [s1 evs1 [result|e]]; simpl.
  - rewrite syncAccountState_run.
    destruct (getActiveAccount_run s1) as (w & a & Haccount).
    rewrite Haccount. simpl. rewrite app_nil_r.
    unfold UseAuth.in_step. simpl.
    repeat split; try reflexivity; destruct a; reflexivity.
  - rewrite app_nil_r. repeat split; reflexivity.
Qed.

(** X28 (useAuth.callGraph).  The action never throws, ends with
    isLoading false and never changes the account refs; it does what
    [callGraphWithClaimsRetry] does to the service state; it returns
    the data with error null when the call returns, and null with error
    set to the message of the thrown value when the call fails. *)
Theorem useAuth_callGraph_settles (endpoint : string)
    (scopes : option (list string)) (r : UseAuth.Refs) (s : State W Pca) :
  let called :=
    callGraphWithClaimsRetry endpoint (default graphScopes_userRead scopes) s in
  let out := UseAuth.callGraph message endpoint scopes r s in
  UseAuth.isLoading (UseAuth.refs out) = false
  /\ UseAuth.account (UseAuth.refs out) = UseAuth.account r
  /\ UseAuth.isAuthenticated (UseAuth.refs out) = UseAuth.isAuthenticated r
  /\ events (UseAuth.run out) = events called
  /\ final (UseAuth.run out) = final called
  /\ match outcome called with
     | Normal data =>
         outcome (UseAuth.run out) = Normal (Some data)
         /\ UseAuth.error (UseAuth.refs out) = None
     | Throw e =>
         outcome (UseAuth.run out) = Normal None
         /\ UseAuth.error (UseAuth.refs out) = Some (message e)
     end.
Proof.
  intros called out. subst called out.
  unfold UseAuth.callGraph, UseAuth.try_catch_finally, UseAuth.and_then,
    UseAuth.assign, UseAuth.service, UseAuth.pure, ret, prefixed.
  simpl.
  destruct (callGraphWithClaimsRetry endpoint
              (default graphScopes_userRead scopes) s)
    as [s1 evs1 [data|e]]; simpl; rewrite app_nil_r;
    repeat split; reflexivity.
Qed.


(** X30 (useAuth: onMounted, login, logout, getToken, callGraph).  The
    actions keep the refs in step: if isAuthenticated is true exactly
    when an account is shown before an action, the same holds after
    it.  The mount hook, moreover, never throws and leaves isLoading
    alone. *)
Theorem useAuth_actions_keep_the_refs_in_step (r : UseAuth.Refs)
    (s : State W Pca) :
  UseAuth.in_step r ->
  (UseAuth.in_step (UseAuth.refs (UseAuth.onMounted message r s))
   /\ is_Normal (outcome (UseAuth.run (UseAuth.onMounted message r s))) = true
   /\ UseAuth.isLoading (UseAuth.refs (UseAuth.onMounted message r s))
      = UseAuth.isLoading r)
  /\ UseAuth.in_step (UseAuth.refs (UseAuth.login message r s))
  /\ UseAuth.in_step (UseAuth.refs (UseAuth.logout message r s))
  /\ (forall scopes,
        UseAuth.in_step (UseAuth.refs (UseAuth.getToken message scopes r s)))
  /\ (forall endpoint scopes,
        UseAuth.in_step
          (UseAuth.refs (UseAuth.callGraph message endpoint scopes r s))).
Proof.
  unfold UseAuth.in_step. intros Hstep.
  split; [|split; [|split; [|split]]].
  - unfold UseAuth.onMounted, UseAuth.try_catch_finally, UseAuth.and_then,
      UseAuth.assign, UseAuth.service, ret, prefixed.
    simpl.
    destruct (getMsalInstance s) as [s1 evs1 [pca|e]]; simpl.
    + rewrite syncAccountState_run.
      destruct (getActiveAccount_run s1) as (w & a & Haccount).
      rewrite Haccount. simpl. destruct a; repeat split; reflexivity.
    + repeat split; try reflexivity. exact Hstep.
  - unfold UseAuth.login, UseAuth.try_catch_finally, UseAuth.and_then,
      UseAuth.assign, UseAuth.service, UseAuth.authLogin, ret, prefixed.
    simpl.
    destruct (login s) as [s1 evs1 [result|e]]; simpl.
    + rewrite syncAccountState_run.
      destruct (getActiveAccount_run s1) as (w & a & Haccount).
      rewrite Haccount. simpl. destruct a; reflexivity.
    + exact Hstep.
  - unfold UseAuth.logout, UseAuth.try_catch_finally, UseAuth.and_then,
      UseAuth.assign, UseAuth.service, UseAuth.authLogout, ret, prefixed.
    simpl.
    destruct (logout s) as [s1 evs1 [[]|e]]; simpl;
      [reflexivity | exact Hstep].
  - intros scopes.
    unfold UseAuth.getToken, UseAuth.try_catch_finally, UseAuth.and_then,
      UseAuth.assign, UseAuth.service, UseAuth.pure, ret, prefixed.
    simpl.
    destruct (acquireToken (default graphScopes_userRead scopes) "graph" s)
      as [s1 evs1 [result|e]]; simpl.
    + rewrite syncAccountState_run.
      destruct (getActiveAccount_run s1) as (w & a & Haccount).
      rewrite Haccount. simpl. destruct a; reflexivity.
    + exact Hstep.
  - intros endpoint scopes.
    unfold UseAuth.callGraph, UseAuth.try_catch_finally, UseAuth.and_then,
      UseAuth.assign, UseAuth.service, UseAuth.pure, ret, prefixed.
    simpl.
    destruct (callGraphWithClaimsRetry endpoint
                (default graphScopes_userRead scopes) s)
      as [s1 evs1 [data|e]]; simpl; exact Hstep.
Qed.

End Facade.


(* ================================================================== *)
(** ** The properties on the scripted host                             *)
(* ================================================================== *)

Import Scripted Scenario.

Lemma acquireToken_silent_request_carries_stored_challenge_witness :
  In (pending_request, sessionStorage pending_silent, Scripted.token "t2")
     (silent_calls (events (acquireToken user_read "graph" pending_silent)))
  /\ claims pending_request = Some decoded_challenge
  /\ forceRefresh pending_request = Some true.
Proof.
  assert (Hin : In (pending_request, sessionStorage pending_silent,
                    Scripted.token "t2")
                  (silent_calls
                     (events (acquireToken user_read "graph" pending_silent)))).
  { vm_compute. left. reflexivity. }
  split; [exact Hin|].
  apply (proj1 (proj2 (acquireToken_silent_request_carries_stored_challenge
                         user_read "graph" pending_silent)
                 pending_request (sessionStorage pending_silent)
                 (Scripted.token "t2") Hin)
           decoded_challenge).
  - vm_compute. reflexivity.
  - discriminate.
Defined.

Lemma acquireToken_interactive_request_carries_error_claims_witness :
  exists request' storage' result',
    popup_calls (events (acquireToken user_read "graph" stepped_up))
    = [(request', storage', result')]
    /\ claims request' = Some decoded_challenge
    /\ storage' !! (STORAGE_KEY_PREFIX +:+ "graph") = Some decoded_challenge.
Proof.
  apply (acquireToken_interactive_request_carries_error_claims
           user_read "graph" stepped_up
           {| scopes := user_read; claims := None; account := None;
              forceRefresh := None |}
           (sessionStorage stepped_up) "interaction_required").
  - vm_compute. left. reflexivity.
  - discriminate.
Defined.

Lemma acquireToken_success_clears_challenge_witness :
  outcome (getStoredClaimsChallenge "graph"
             (final (acquireToken user_read "graph" pending_silent)))
  = Normal None.
Proof.
  apply (acquireToken_success_clears_challenge user_read "graph" pending_silent
           {| accessToken := "t2"; result_account := None |}).
  - vm_compute. reflexivity.
  - left. exists decoded_challenge. split; [vm_compute; reflexivity | discriminate].
Defined.

Lemma acquireToken_propagates_other_errors_witness :
  outcome (acquireToken user_read "graph" offline) = network_down
  /\ popup_calls (events (acquireToken user_read "graph" offline)) = []
  /\ length (silent_calls (events (acquireToken user_read "graph" offline))) = 1.
Proof.
  apply (proj2 (acquireToken_propagates_other_errors user_read "graph" offline)
           {| scopes := user_read; claims := None; account := None;
              forceRefresh := None |}
           (sessionStorage offline)
           (Error "BrowserAuthError" "no_network_connectivity")).
  - vm_compute. left. reflexivity.
  - reflexivity.
Defined.

Lemma acquireToken_ignores_empty_challenge_witness :
  outcome (acquireToken user_read "graph" empty_entry) = Scripted.token "t4"
  /\ popup_calls (events (acquireToken user_read "graph" empty_entry)) = []
  /\ outcome (getStoredClaimsChallenge "graph"
                (final (acquireToken user_read "graph" empty_entry)))
     = Normal (Some EmptyString).
Proof.
  apply (proj1 (proj2 (acquireToken_ignores_empty_challenge
                         user_read "graph" empty_entry eq_refl))
           {| scopes := user_read; claims := None; account := None;
              forceRefresh := None |}
           (sessionStorage empty_entry)
           {| accessToken := "t4"; result_account := None |}).
  vm_compute. left. reflexivity.
Defined.

Lemma challenge_store_get_put_clear_witness :
  outcome (getStoredClaimsChallenge "mail"
             (final (storeClaimsChallenge "graph" decoded_challenge
                       (Scripted.fresh (Scripted.script [] [] [])))))
  = outcome (getStoredClaimsChallenge "mail"
               (Scripted.fresh (Scripted.script [] [] []))).
Proof.
  apply (proj2 (proj2 (challenge_store_get_put_clear "graph" "mail"
                         decoded_challenge
                         (Scripted.fresh (Scripted.script [] [] []))))).
  discriminate.
Defined.

Lemma challenge_response_yields_claims :
  yields_claims challenge_response decoded_challenge.
Proof.
  split; [reflexivity|]. exists spec_header.
  split; [reflexivity | vm_compute; reflexivity].
Qed.

(** C2 (counterexample).  The first response is a 401 with a claims
    challenge, the user cancels the step-up, and one fetch was issued. *)
Lemma cancelled_retry_fetches_once :
  ~ retries_exactly_once "/me" user_read cancelled_retry.
Proof.
  intros Hclaim.
  assert (Hfetches : fetch_calls
                       (events (callGraphWithClaimsRetry "/me" user_read
                                  cancelled_retry))
                     = [(GRAPH_BASE +:+ "/me", "Bearer t1",
                         Normal challenge_response)]).
  { vm_compute. reflexivity. }
  assert (Hne : decoded_challenge <> EmptyString) by discriminate.
  pose proof (Hclaim _ _ _ _ _ Hfetches challenge_response_yields_claims Hne)
    as Htwo.
  rewrite Hfetches in Htwo. discriminate Htwo.
Qed.

Lemma callGraphWithClaimsRetry_retries_at_most_once_witness :
  length (fetch_calls
            (events (callGraphWithClaimsRetry "/me" user_read challenged_twice)))
  = 2
  /\ outcome (callGraphWithClaimsRetry "/me" user_read challenged_twice)
     = Throw (Error "Error"
                (graph_error_message challenge_response "{}")).
Proof.
  destruct (proj2 (callGraphWithClaimsRetry_retries_at_most_once
                     "/me" user_read challenged_twice)
              (GRAPH_BASE +:+ "/me") "Bearer t1" challenge_response
              [(GRAPH_BASE +:+ "/me", "Bearer t2", Normal challenge_response)]
              decoded_challenge)
    as (w & stored & Hstored & _ & Hsecond).
  - vm_compute. reflexivity.
  - exact challenge_response_yields_claims.
  - discriminate.
  - split; [vm_compute; reflexivity|].
    cbv zeta in Hsecond.
    destruct (outcome (acquireToken user_read RESOURCE stored)) as [t|e].
    + destruct Hsecond as (retried & _ & [= _ <-] & Herror & _).
      apply (Herror challenge_response "{}"); reflexivity.
    + destruct Hsecond as (_ & [=] & _).
Defined.

Lemma getMsalInstance_overlapping_calls_construct_two_clients_witness :
  length (created_clients
            (history (run_schedule [0; 1; 0; 1]
                        (two_calls (Scripted.fresh (Scripted.script [] [] []))))))
  = 2.
Proof.
  apply (getMsalInstance_overlapping_calls_construct_two_clients
           (Scripted.fresh (Scripted.script [] [] [])) [0; 1]).
  reflexivity.
Defined.

(** The two end-to-end scenarios of the design.  Interactive fallback,
    then a 200: the body is returned and nothing is stored. *)
Example scenario_interactive_fallback :
  let run := callGraphWithClaimsRetry "/me" user_read first_sign_in in
  outcome run = Normal "{}"
  /\ sessionStorage (final run) = ∅
  /\ length (popup_calls (events run)) = 1
  /\ length (fetch_calls (events run)) = 1.
Proof. vm_compute. repeat split; reflexivity. Qed.

(** A 401 with a challenge, then a 200: the second silent acquisition
    carries the decoded challenge and forces a refresh, the body is
    returned, and the challenge is cleared. *)
Example scenario_challenge_then_success :
  let run := callGraphWithClaimsRetry "/me" user_read challenged_once in
  outcome run = Normal "{}"
  /\ sessionStorage (final run) = ∅
  /\ map (fun call => (claims call.1.1, forceRefresh call.1.1))
         (silent_calls (events run))
     = [(None, None); (Some decoded_challenge, Some true)]
  /\ map (fun call => call.1.2) (fetch_calls (events run))
     = ["Bearer t1"; "Bearer t2"].
Proof. vm_compute. repeat split; reflexivity. Qed.

(** On the scripted host the two overlapping calls return two different
    client objects, and the variable keeps the second. *)
Example overlapping_calls_return_distinct_instances :
  let sys := run_schedule [0; 1; 0; 1]
               (two_calls (Scripted.fresh (Scripted.script [] [] []))) in
  calls sys = [Settled (Normal 0); Settled (Normal 1)]
  /\ created_clients (history sys) = [Normal 0; Normal 1]
  /\ msalInstance (shared sys) = Some 1.
Proof. vm_compute. auto. Qed.

(* ================================================================== *)
(** ** The further properties on the scripted host                     *)
(* ================================================================== *)

Import ScriptedSession.

Lemma parse_result_comes_from_first_pair_witness :
  exists v,
    first_claims_pair two_pair_header v
    /\ (Platform.atob v = Normal "!"
        \/ (is_Normal (Platform.atob v) = false /\ "!" = v)).
Proof.
  apply (parse_result_comes_from_first_pair two_pair_header "!").
  vm_compute. reflexivity.
Defined.

Lemma scripted_host_remembers_active_account :
  remembers_active_account (W := World) (Pca := nat) (J := string).
Proof. intros pca a w. reflexivity. Qed.

Lemma acquireToken_leaves_other_resources_witness :
  outcome (getStoredClaimsChallenge "mail"
             (final (acquireToken user_read "graph" two_resources)))
  = outcome (getStoredClaimsChallenge "mail" two_resources).
Proof.
  apply (acquireToken_leaves_other_resources user_read "graph" two_resources
           "mail").
  discriminate.
Defined.


Lemma acquireToken_interactive_request_differs_in_claims_only_witness :
  let silent_request :=
    {| scopes := user_read; claims := None; account := None;
       forceRefresh := None |} in
  let popup_request :=
    {| scopes := user_read; claims := Some decoded_challenge; account := None;
       forceRefresh := None |} in
  scopes silent_request = user_read
  /\ scopes popup_request = user_read
  /\ account popup_request = account silent_request
  /\ forceRefresh popup_request = forceRefresh silent_request
  /\ (claims popup_request = claims silent_request
      \/ exists code e,
           interaction_required decoded_challenge
           = Throw (InteractionRequiredAuthError code e)
           /\ e <> EmptyString /\ claims popup_request = Some e).
Proof.
  apply (acquireToken_interactive_request_differs_in_claims_only
           user_read "graph" stepped_up _ _
           (sessionStorage stepped_up)
           ({[ graph_key := decoded_challenge ]})
           (interaction_required decoded_challenge) (token "t3")).
  - vm_compute. left. reflexivity.
  - vm_compute. left. reflexivity.
Defined.

Lemma acquireToken_request_names_active_account_witness :
  outcome (getActiveAccount (final (getMsalInstance returning_user)))
  = Normal (account returning_request).
Proof.
  apply (acquireToken_request_names_active_account user_read "graph"
           returning_user returning_request (sessionStorage returning_user)
           (token_for alice "t5")).
  vm_compute. left. reflexivity.
Defined.


Lemma login_makes_the_account_active_witness :
  outcome (getActiveAccount (final (login first_login)))
  = Normal (Some alice).
Proof.
  apply (login_makes_the_account_active first_login
           {| accessToken := "t6"; result_account := Some alice |} alice
           scripted_host_remembers_active_account).
  - reflexivity.
  - reflexivity.
Defined.

Lemma logout_without_account_clears_nothing_witness :
  logout (fresh (script [] [] []))
  = {| final := final (getMsalInstance (fresh (script [] [] [])));
       events := events (getMsalInstance (fresh (script [] [] [])));
       outcome := Normal tt |}.
Proof.
  apply (@logout_without_account_clears_nothing World nat string session_host
           (fresh (script [] [] []))).
  - reflexivity.
  - reflexivity.
Defined.

Lemma callGraph_fetches_carry_acquired_tokens_witness :
  GRAPH_BASE +:+ "/me" = GRAPH_BASE +:+ "/me"
  /\ exists t,
       "Bearer t2" = "Bearer " +:+ accessToken t
       /\ ((exists request storage,
               In (request, storage, Normal t)
                  (silent_calls
                     (events (callGraphWithClaimsRetry "/me" user_read
                                challenged_once))))
           \/ (exists request storage,
                 In (request, storage, Normal t)
                    (popup_calls
                       (events (callGraphWithClaimsRetry "/me" user_read
                                  challenged_once))))).
Proof.
  apply (callGraph_fetches_carry_acquired_tokens "/me" user_read
           challenged_once (GRAPH_BASE +:+ "/me") "Bearer t2"
           (respond 200 "OK" None)).
  vm_compute. right. left. reflexivity.
Defined.

Lemma callGraph_failed_fetch_propagates_witness :
  outcome (callGraphWithClaimsRetry "/me" user_read unreachable)
  = Throw fetch_failed
  /\ last (fetch_calls
             (events (callGraphWithClaimsRetry "/me" user_read unreachable)))
     = Some (GRAPH_BASE +:+ "/me", "Bearer t1", Throw fetch_failed).
Proof.
  apply (callGraph_failed_fetch_propagates "/me" user_read unreachable).
  vm_compute. left. reflexivity.
Defined.

Lemma callGraph_unchallenged_response_settles_witness :
  @nil (string * string * Completion Response) = []
  /\ outcome (callGraphWithClaimsRetry "/me" user_read not_found)
     = settle_response not_found_response.
Proof.
  apply (callGraph_unchallenged_response_settles "/me" user_read not_found
           (GRAPH_BASE +:+ "/me") "Bearer t1" not_found_response []).
  - vm_compute. reflexivity.
  - intros c (Hstatus & _). discriminate Hstatus.
Defined.

Lemma callGraph_returns_only_a_parsed_success_body_witness :
  exists before url authorization response body,
    fetch_calls (events (callGraphWithClaimsRetry "/me" user_read first_sign_in))
    = before ++ [(url, authorization, Normal response)]
    /\ response_ok response = true
    /\ response_text response = Normal body
    /\ JSON_parse body = Normal "{}".
Proof.
  apply (callGraph_returns_only_a_parsed_success_body "/me" user_read
           first_sign_in "{}").
  vm_compute. reflexivity.
Defined.

Lemma callGraph_leaves_other_resources_witness :
  outcome (getStoredClaimsChallenge "mail"
             (final (callGraphWithClaimsRetry "/me" user_read mail_pending)))
  = outcome (getStoredClaimsChallenge "mail" mail_pending).
Proof.
  apply (callGraph_leaves_other_resources "/me" user_read mail_pending "mail").
  discriminate.
Defined.


Lemma useAuth_actions_keep_the_refs_in_step_witness :
  UseAuth.in_step
    (UseAuth.refs (UseAuth.login message UseAuth.initial first_login)).
Proof.
  apply (useAuth_actions_keep_the_refs_in_step message UseAuth.initial
           first_login).
  reflexivity.
Defined.

(** Signing in, then out, on the scripted host: the refs show the
    account, then nothing, and loading has stopped each time. *)
Example scenario_sign_in_then_out :
  let signed_in := UseAuth.login message UseAuth.initial first_login in
  let signed_out :=
    UseAuth.logout message (UseAuth.refs signed_in)
      (final (UseAuth.run signed_in)) in
  UseAuth.refs signed_in
  = {| UseAuth.isAuthenticated := true; UseAuth.account := Some alice;
       UseAuth.isLoading := false; UseAuth.error := None |}
  /\ UseAuth.refs signed_out = UseAuth.initial
  /\ outcome (getActiveAccount (final (UseAuth.run signed_out)))
     = Normal None.
Proof. vm_compute. repeat split; reflexivity. Qed.

(** A failed Graph call through the composable: nothing is thrown, the
    result is null and the message is shown. *)
Example scenario_graph_call_not_found :
  let out := UseAuth.callGraph message "/me" None UseAuth.initial not_found in
  outcome (UseAuth.run out) = Normal None
  /\ UseAuth.refs out
     = {| UseAuth.isAuthenticated := false; UseAuth.account := None;
          UseAuth.isLoading := false;
          UseAuth.error :=
            Some (graph_error_message not_found_response "{}") |}.
Proof. vm_compute. repeat split; reflexivity. Qed.

(** A retried response that is not a success and whose body cannot be
    read: two fetches were made, and the error of reading the body is
    thrown, not a Graph API error. *)
Example scenario_retry_body_unreadable :
  let run := callGraphWithClaimsRetry "/me" user_read retry_unreadable in
  map (fun call => call.1.2) (fetch_calls (events run))
  = ["Bearer t1"; "Bearer t2"]
  /\ outcome run = Throw body_lost.
Proof. vm_compute. split; reflexivity. Qed.
